(** * Move ordering of the Laser chess engine (moveorder.cpp / moveorder.h)

    A shallow embedding of [struct MoveOrder] and of its member functions
    [generateMoves], [scoreCaptures], [scoreQuiets], [findQuietStart],
    [nextMove] and [updateHistories], followed by the properties of the
    staged generator, of the selector and of the history update.

    Conventions of the embedding.
    - The C++ [int] values (scores, history weights, SEE values) are
      integers of [Z]; signed overflow is undefined in C++, so the
      embedding describes the executions in which no intermediate value
      leaves the [int] range.  [/] on [int] is truncating, i.e. [Z.quot].
      A theorem that rests on the size of a score or of a weight says so
      in its hypotheses ([smallValue], a bound on the weights) and shows
      the sums or products concerned to be values of [int] ([fitsInt]).
    - The [unsigned int] fields [index] and [quietStart] are naturals.
      The only subtraction on them, [index-1] in [updateHistories], is
      guarded by the test [index <= 0] of the source.
    - [MoveList] and [ScoreList] are lists; [get] is the total lookup
      [!!!], which is read inside the bounds on every state the public
      functions can reach (lemma [wf_reachable] and the use of [wf]).
    - The objects behind the pointers [b], [searchParams] and [ssi] are
      shared with the rest of the search; they live in a [Store] that is
      passed to every member function and returned by the one that writes
      to it ([updateHistories]).  The tables behind [counterMoveHistory]
      and [followupMoveHistory] are two tables, not one table reached
      through both pointers.
    - board.h, common.h, search.h and searchparams.h are not among the
      sources: what moveorder.cpp uses of them is a parameter of the
      embedding ([MoveEncoding], [Board], [SearchParameters],
      [SearchStackInfo]). *)

From Stdlib Require Import ZArith Lia.
From stdpp Require Import base decidable option numbers list functions relations.

(** ** Interfaces declared outside moveorder.cpp *)

(** [Move] is an integral type in common.h. *)
Definition Move := Z.

(** Constants and move-decoding helpers of common.h, which moveorder.cpp
    only uses: the sentinel [NULL_MOVE], the piece code [QUEENS], and the
    accessors of a move. *)
Class MoveEncoding := {
  NULL_MOVE : Move;
  QUEENS : Z;
  isCapture : Move → bool;
  getPromotion : Move → Z;
  getStartSq : Move → Z;
  getEndSq : Move → Z
}.

(** The member functions of [Board] that moveorder.cpp calls. *)
Record Board := {
  getSEEForMove : Z → Move → Z;
  getMVVLVAScore : Z → Move → Z;
  getExchangeScore : Z → Move → Z;
  getPieceOnSquare : Z → Z → Z
}.

(** [historyTable[color][pieceID][endSq]] and the two-dimensional tables
    behind [counterMoveHistory] and [followupMoveHistory]. *)
Definition HistoryTable := (Z * Z * Z → Z)%type.
Definition PieceSquareTable := (Z * Z → Z)%type.

Record SearchParameters := {
  killers : Z → Z → Move;
  historyTable : HistoryTable
}.

(** The two history pointers of [SearchStackInfo] may be [nullptr]. *)
Record SearchStackInfo := {
  ply : Z;
  counterMoveHistory : option PieceSquareTable;
  followupMoveHistory : option PieceSquareTable
}.

(** What the three pointers of a [MoveOrder] point to. *)
Record Store := {
  b : Board;
  searchParams : SearchParameters;
  ssi : SearchStackInfo
}.

(** ** moveorder.h *)

Inductive MoveGenStage :=
  | STAGE_NONE
  | STAGE_HASH_MOVE
  | STAGE_CAPTURES
  | STAGE_QUIETS.

Global Instance MoveGenStage_eq_dec : EqDecision MoveGenStage.
Proof. solve_decision. Defined.

(** The value fields of [struct MoveOrder]. *)
Record MoveOrder := {
  color : Z;
  depth : Z;
  isPVNode : bool;
  mgStage : MoveGenStage;
  hashed : Move;
  legalMoves : list Move;
  scores : list Z;
  quietStart : nat;
  index : nat
}.

Definition set_mgStage (s : MoveGenStage) (mo : MoveOrder) : MoveOrder :=
  {| color := color mo; depth := depth mo; isPVNode := isPVNode mo;
     mgStage := s; hashed := hashed mo; legalMoves := legalMoves mo;
     scores := scores mo; quietStart := quietStart mo; index := index mo |}.

Definition set_legalMoves (l : list Move) (mo : MoveOrder) : MoveOrder :=
  {| color := color mo; depth := depth mo; isPVNode := isPVNode mo;
     mgStage := mgStage mo; hashed := hashed mo; legalMoves := l;
     scores := scores mo; quietStart := quietStart mo; index := index mo |}.

Definition set_scores (s : list Z) (mo : MoveOrder) : MoveOrder :=
  {| color := color mo; depth := depth mo; isPVNode := isPVNode mo;
     mgStage := mgStage mo; hashed := hashed mo; legalMoves := legalMoves mo;
     scores := s; quietStart := quietStart mo; index := index mo |}.

Definition set_quietStart (q : nat) (mo : MoveOrder) : MoveOrder :=
  {| color := color mo; depth := depth mo; isPVNode := isPVNode mo;
     mgStage := mgStage mo; hashed := hashed mo; legalMoves := legalMoves mo;
     scores := scores mo; quietStart := q; index := index mo |}.

Definition set_index (i : nat) (mo : MoveOrder) : MoveOrder :=
  {| color := color mo; depth := depth mo; isPVNode := isPVNode mo;
     mgStage := mgStage mo; hashed := hashed mo; legalMoves := legalMoves mo;
     scores := scores mo; quietStart := quietStart mo; index := i |}.

(** Modelled from the spec: the container behind [MoveList] and
    [ScoreList] is declared in common.h, which is not among the sources;
    the specification describes it as an ordered, mutable sequence with
    removal and index-swap.  It is a list here: [size] is [length], [get]
    is the lookup [!!!], [add] appends at the end, [remove(i)] is
    [delete i] (the later entries move down by one) and [swap(i, j)]
    exchanges the entries at [i] and [j]. *)
Definition swap `{!Inhabited A} (l : list A) (i j : nat) : list A :=
  <[j := l !!! i]> (<[i := l !!! j]> l).

(** ** moveorder.cpp *)

Definition SCORE_IID_MOVE : Z := 2 ^ 20.
Definition SCORE_WINNING_CAPTURE : Z := 2 ^ 18.
Definition SCORE_QUEEN_PROMO : Z := 2 ^ 17.
Definition SCORE_EVEN_CAPTURE : Z := 2 ^ 16.
Definition SCORE_QUIET_MOVE : Z := - 2 ^ 30.
Definition SCORE_LOSING_CAPTURE : Z := - 2 ^ 30 - 2 ^ 28.

Section MoveOrder.
Context `{!MoveEncoding}.

(** The constructor. *)
Definition MoveOrder_new (_color _depth : Z) (_isPVNode : bool)
    (_hashed : Move) (_legalMoves : list Move) : MoveOrder :=
  {| color := _color; depth := _depth; isPVNode := _isPVNode;
     mgStage := STAGE_NONE; hashed := _hashed; legalMoves := _legalMoves;
     scores := []; quietStart := 0; index := 0 |}.

(** The loop of [generateMoves] under [case STAGE_NONE]: [remove(i)] at
    the first index [i] whose entry equals the hash move, then [break];
    the list is unchanged when no entry equals it. *)
Definition removeHashed (h : Move) (l : list Move) : list Move :=
  match list_find (λ m, m = h) l with
  | Some (i, _) => delete i l
  | None => l
  end.

(** [findQuietStart]: the index of the first move that is no capture,
    [legalMoves.size()] when the loop finds none. *)
Definition findQuietStart (mo : MoveOrder) : MoveOrder :=
  match list_find (λ m, isCapture m = false) (legalMoves mo) with
  | Some (i, _) => set_quietStart i mo
  | None => set_quietStart (length (legalMoves mo)) mo
  end.

(** The score that the body of the loop of [scoreCaptures] adds for [m]. *)
Definition captureScore (st : Store) (mo : MoveOrder) (m : Move) : Z :=
  let mvvlva := getMVVLVAScore (b st) (color mo) m in
  if isPVNode mo then
    let see := getSEEForMove (b st) (color mo) m in
    if decide (see > 0)%Z then (SCORE_WINNING_CAPTURE + see + mvvlva)%Z
    else if decide (see = 0)%Z then (SCORE_EVEN_CAPTURE + mvvlva)%Z
    else (SCORE_LOSING_CAPTURE + see + mvvlva)%Z
  else
    let exchange := getExchangeScore (b st) (color mo) m in
    if decide (exchange > 0)%Z then (SCORE_WINNING_CAPTURE + mvvlva)%Z
    else if decide (exchange = 0)%Z then (SCORE_EVEN_CAPTURE + mvvlva)%Z
    else
      let see := getSEEForMove (b st) (color mo) m in
      if decide (see > 0)%Z then (SCORE_WINNING_CAPTURE + mvvlva)%Z
      else if decide (see = 0)%Z then (SCORE_EVEN_CAPTURE + mvvlva)%Z
      else (SCORE_LOSING_CAPTURE + mvvlva)%Z.

Definition scoreCaptures (st : Store) (mo : MoveOrder) : MoveOrder :=
  set_scores
    (scores mo ++
       ((λ i, captureScore st mo (legalMoves mo !!! i)) <$> seq 0 (quietStart mo)))
    mo.

(** The value read through a history pointer that may be null. *)
Definition optionalHistory (t : option PieceSquareTable) (pieceID endSq : Z) : Z :=
  match t with
  | Some tbl => tbl (pieceID, endSq)
  | None => 0%Z
  end.

(** The score that the body of the loop of [scoreQuiets] adds for [m]. *)
Definition quietScore (st : Store) (mo : MoveOrder) (m : Move) : Z :=
  if decide (m = killers (searchParams st) (ply (ssi st)) 0) then
    (SCORE_EVEN_CAPTURE - 1)%Z
  else if decide (getPromotion m = QUEENS) then SCORE_QUEEN_PROMO
  else
    let startSq := getStartSq m in
    let endSq := getEndSq m in
    let pieceID := getPieceOnSquare (b st) (color mo) startSq in
    (SCORE_QUIET_MOVE
     + historyTable (searchParams st) (color mo, pieceID, endSq)
     + optionalHistory (counterMoveHistory (ssi st)) pieceID endSq
     + optionalHistory (followupMoveHistory (ssi st)) pieceID endSq)%Z.

Definition scoreQuiets (st : Store) (mo : MoveOrder) : MoveOrder :=
  set_scores
    (scores mo ++
       ((λ i, quietScore st mo (legalMoves mo !!! i))
          <$> seq (quietStart mo) (length (legalMoves mo) - quietStart mo)))
    mo.

(** The two statements shared by the fall-through of [case STAGE_NONE]
    and by [case STAGE_HASH_MOVE]. *)
Definition enterCaptures (st : Store) (mo : MoveOrder) : MoveOrder :=
  scoreCaptures st (set_mgStage STAGE_CAPTURES (findQuietStart mo)).

Definition generateMoves (st : Store) (mo : MoveOrder) : MoveOrder :=
  match mgStage mo with
  | STAGE_NONE =>
      if decide (hashed mo ≠ NULL_MOVE) then
        set_legalMoves (removeHashed (hashed mo) (legalMoves mo))
          (set_mgStage STAGE_HASH_MOVE mo)
      else enterCaptures st mo
  | STAGE_HASH_MOVE => enterCaptures st mo
  | STAGE_CAPTURES => scoreQuiets st (set_mgStage STAGE_QUIETS mo)
  | STAGE_QUIETS => mo
  end.

(** The [while] loop of [nextMove], run for at most [n] iterations.  It
    stops where the source leaves the loop (the cursor has a scored entry)
    or returns (stage [STAGE_QUIETS]); [refill_enough] shows that three
    iterations always reach one of the two. *)
Fixpoint refill (n : nat) (st : Store) (mo : MoveOrder) : MoveOrder :=
  match n with
  | 0 => mo
  | S n' =>
      if decide (length (scores mo) ≤ index mo) then
        if decide (mgStage mo = STAGE_QUIETS) then mo
        else refill n' st (generateMoves st mo)
      else mo
  end.

(** The scan for the best score: [(bestIndex, bestScore)] after the [for]
    loop of [nextMove]; a later entry replaces the best one only when it
    is strictly greater. *)
Definition findBest (sc : list Z) (idx : nat) : nat * Z :=
  foldl (λ best i, if decide (sc !!! i > best.2)%Z then (i, sc !!! i) else best)
        (idx, sc !!! idx)
        (seq (S idx) (length sc - S idx)).

(** The part of [nextMove] after the loop: the scan, the two swaps, the
    early generation of the quiet moves, and the move under the cursor. *)
Definition swapBest (bestIndex : nat) (mo : MoveOrder) : MoveOrder :=
  set_scores (swap (scores mo) bestIndex (index mo))
    (set_legalMoves (swap (legalMoves mo) bestIndex (index mo)) mo).

Definition selectBest (st : Store) (mo1 : MoveOrder) : Move * MoveOrder :=
  let best := findBest (scores mo1) (index mo1) in
  let mo2 := swapBest best.1 mo1 in
  let mo3 :=
    if decide (mgStage mo2 = STAGE_CAPTURES ∧ (best.2 < SCORE_WINNING_CAPTURE)%Z)
    then generateMoves st mo2 else mo2 in
  (legalMoves mo3 !!! index mo3, set_index (S (index mo3)) mo3).

Definition nextMove (st : Store) (mo : MoveOrder) : Move * MoveOrder :=
  if decide (mgStage mo = STAGE_HASH_MOVE) then (hashed mo, mo)
  else
    let mo1 := refill 3 st mo in
    if decide (length (scores mo1) ≤ index mo1) then (NULL_MOVE, mo1)
    else selectBest st mo1.

(** [t -= histDepth * t / 64; t += histDepth * histDepth] and its
    counterpart with [-=] in the loop over the moves tried earlier. *)
Definition historyBonus (histDepth w : Z) : Z :=
  (w - (histDepth * w) ÷ 64 + histDepth * histDepth)%Z.

Definition historyMalus (histDepth w : Z) : Z :=
  (w - (histDepth * w) ÷ 64 - histDepth * histDepth)%Z.

(** One block of three table updates of [updateHistories], for the move
    [m], with [f] the update of a single weight. *)
Definition adjustHistories (f : Z → Z) (c : Z) (m : Move) (st : Store) : Store :=
  let startSq := getStartSq m in
  let endSq := getEndSq m in
  let pieceID := getPieceOnSquare (b st) c startSq in
  let sp := searchParams st in
  let si := ssi st in
  {| b := b st;
     searchParams :=
       {| killers := killers sp;
          historyTable :=
            <[(c, pieceID, endSq) := f (historyTable sp (c, pieceID, endSq))]>
              (historyTable sp) |};
     ssi :=
       {| ply := ply si;
          counterMoveHistory :=
            (λ t : PieceSquareTable, <[(pieceID, endSq) := f (t (pieceID, endSq))]> t)
              <$> counterMoveHistory si;
          followupMoveHistory :=
            (λ t : PieceSquareTable, <[(pieceID, endSq) := f (t (pieceID, endSq))]> t)
              <$> followupMoveHistory si |} |}.

(** The [for] loop of [updateHistories] over the indices [idxs]: [break] at
    the best move, [continue] on a capture, a penalty otherwise. *)
Fixpoint penalizeTried (histDepth : Z) (mo : MoveOrder) (bestMove : Move)
    (idxs : list nat) (st : Store) : Store :=
  match idxs with
  | [] => st
  | i :: rest =>
      let m := legalMoves mo !!! i in
      if decide (m = bestMove) then st
      else if isCapture m then penalizeTried histDepth mo bestMove rest st
      else penalizeTried histDepth mo bestMove rest
             (adjustHistories (historyMalus histDepth) (color mo) m st)
  end.

Definition updateHistories (mo : MoveOrder) (bestMove : Move) (st : Store) : Store :=
  let histDepth := Z.min (depth mo) 12 in
  let st1 := adjustHistories (historyBonus histDepth) (color mo) bestMove st in
  if decide (index mo ≤ 0) then st1
  else penalizeTried histDepth mo bestMove (seq 0 (index mo - 1)) st1.

(** ** Pulling moves until exhaustion

    The loop [for (m = nextMove(); m != NULL_MOVE; m = nextMove())] of a
    caller, with a bound on the number of calls: the moves returned
    before the sentinel and the state after it, [None] when the bound is
    reached first ([pullAll_pending]: one call more than there are moves
    is enough). *)
Fixpoint pullAll (fuel : nat) (st : Store) (mo : MoveOrder)
    : option (list Move * MoveOrder) :=
  match fuel with
  | 0 => None
  | S fuel' =>
      let r := nextMove st mo in
      if decide (r.1 = NULL_MOVE) then Some ([], r.2)
      else
        match pullAll fuel' st r.2 with
        | Some (ms, mo') => Some (r.1 :: ms, mo')
        | None => None
        end
  end.

End MoveOrder.

(** ** Sequences of calls to the public member functions *)

Inductive Call :=
  | CallGenerateMoves (st : Store)
  | CallNextMove (st : Store).

Section Protocol.
Context `{!MoveEncoding}.

(** One call on the generator; the store is the one the call finds. *)
Definition runCall (mo : MoveOrder) (c : Call) : MoveOrder :=
  match c with
  | CallGenerateMoves st => generateMoves st mo
  | CallNextMove st => (nextMove st mo).2
  end.

Definition runCalls (cs : list Call) (mo : MoveOrder) : MoveOrder :=
  foldl runCall mo cs.

(** The order of the enumeration [MoveGenStage]. *)
Definition stageRank (s : MoveGenStage) : nat :=
  match s with
  | STAGE_NONE => 0
  | STAGE_HASH_MOVE => 1
  | STAGE_CAPTURES => 2
  | STAGE_QUIETS => 3
  end.

(** The arrows of the stage machine taken by one [generateMoves]. *)
Inductive stageArrow : MoveGenStage → MoveGenStage → Prop :=
  | arrow_none_hash : stageArrow STAGE_NONE STAGE_HASH_MOVE
  | arrow_none_captures : stageArrow STAGE_NONE STAGE_CAPTURES
  | arrow_hash_captures : stageArrow STAGE_HASH_MOVE STAGE_CAPTURES
  | arrow_captures_quiets : stageArrow STAGE_CAPTURES STAGE_QUIETS
  | arrow_quiets_quiets : stageArrow STAGE_QUIETS STAGE_QUIETS.

(** The states on which the member functions read their lists inside the
    bounds: the scored prefix is as long as the stage says and the cursor
    is inside it. *)
Definition wf (mo : MoveOrder) : Prop :=
  index mo ≤ length (scores mo) ∧
  match mgStage mo with
  | STAGE_NONE => scores mo = []
  | STAGE_HASH_MOVE => scores mo = [] ∧ hashed mo ≠ NULL_MOVE
  | STAGE_CAPTURES =>
      length (scores mo) = quietStart mo ∧ quietStart mo ≤ length (legalMoves mo)
  | STAGE_QUIETS => length (scores mo) = length (legalMoves mo)
  end.

(** The moves that calls of [nextMove] have yet to return: the list
    behind the cursor, less the hash move while [generateMoves] has not
    removed it. *)
Definition pending (mo : MoveOrder) : list Move :=
  match mgStage mo with
  | STAGE_NONE =>
      if decide (hashed mo ≠ NULL_MOVE)
      then removeHashed (hashed mo) (legalMoves mo)
      else legalMoves mo
  | _ => drop (index mo) (legalMoves mo)
  end.

(** The score the generator gives to a move: [scoreCaptures] scores the
    captures and [scoreQuiets] the other moves. *)
Definition scoreOf (st : Store) (mo : MoveOrder) (m : Move) : Z :=
  if isCapture m then captureScore st mo m else quietScore st mo m.

(** The order in which the move generator fills a [MoveList]: no capture
    comes after a move that is not a capture. *)
Definition capturesFirst (l : list Move) : Prop :=
  ∀ i j mi mj, i ≤ j → l !! i = Some mi → l !! j = Some mj →
    isCapture mi = false → isCapture mj = false.

(** Every scored entry holds the score of the move at the same index,
    and the captures are the moves below [quietStart] as long as the
    quiet moves are not scored. *)
Definition aligned (st : Store) (mo : MoveOrder) : Prop :=
  (∀ i m s, legalMoves mo !! i = Some m → scores mo !! i = Some s →
     s = scoreOf st mo m)
  ∧ match mgStage mo with
    | STAGE_NONE | STAGE_HASH_MOVE => capturesFirst (legalMoves mo)
    | STAGE_CAPTURES =>
        ∀ i m, legalMoves mo !! i = Some m →
          (i < quietStart mo ↔ isCapture m = true)
    | STAGE_QUIETS => True
    end.

(** The fields of a node that no member function writes. *)
Definition sameNode (mo mo' : MoveOrder) : Prop :=
  color mo' = color mo ∧ depth mo' = depth mo
  ∧ isPVNode mo' = isPVNode mo ∧ hashed mo' = hashed mo.

(** [m1] is returned before [m2]: [m1] occurs in the sequence, [m2] occurs
    after it and not before it. *)
Definition pulledBefore (m1 m2 : Move) (ms : list Move) : Prop :=
  ∃ l1 l2, ms = l1 ++ (m1 :: l2) ∧ (m2 ∉ l1) ∧ (m2 ∈ l2).

(** [t'] is [t] with [f] applied to the entry [k]. *)
Definition bumped {K} `{EqDecision K} (f : Z → Z) (k : K) (t t' : K → Z) : Prop :=
  ∀ k', t' k' = if decide (k' = k) then f (t k') else t k'.

(** The node of the example: the five moves [mH] (predicted), [mC1]
    (capture, SEE +200), [mC2] (capture, SEE -50), [mK] (quiet, first
    killer of the ply) and [mQ] (quiet, no promotion to a queen, history
    zero), in a list with the captures first; the tie-break values of the
    captures are below [2^16]. *)
Definition scenario (st : Store) (c : Z) (l : list Move)
    (mH mC1 mC2 mK mQ : Move) : Prop :=
  l ≡ₚ [mH; mC1; mC2; mK; mQ]
  ∧ NoDup l
  ∧ (NULL_MOVE ∉ l)
  ∧ capturesFirst l
  ∧ isCapture mC1 = true ∧ isCapture mC2 = true
  ∧ isCapture mK = false ∧ isCapture mQ = false
  ∧ getSEEForMove (b st) c mC1 = 200%Z
  ∧ getSEEForMove (b st) c mC2 = (-50)%Z
  ∧ (0 ≤ getMVVLVAScore (b st) c mC1 < 2 ^ 16)%Z
  ∧ (0 ≤ getMVVLVAScore (b st) c mC2 < 2 ^ 16)%Z
  ∧ killers (searchParams st) (ply (ssi st)) 0 = mK
  ∧ getPromotion mQ ≠ QUEENS
  ∧ (let pieceID := getPieceOnSquare (b st) c (getStartSq mQ) in
     historyTable (searchParams st) (c, pieceID, getEndSq mQ)
     + optionalHistory (counterMoveHistory (ssi st)) pieceID (getEndSq mQ)
     + optionalHistory (followupMoveHistory (ssi st)) pieceID (getEndSq mQ)
     = 0)%Z.

(** The store a call is made with, and the sequences of calls that are
    all made with one store. *)
Definition callStore (c : Call) : Store :=
  match c with
  | CallGenerateMoves st => st
  | CallNextMove st => st
  end.

Definition callsOn (st : Store) (cs : list Call) : Prop :=
  Forall (λ c, callStore c = st) cs.

(** Every weight of a table, and of the three history tables of a store,
    lies between [-B] and [B]. *)
Definition tableBounded {K} (B : Z) (t : K → Z) : Prop :=
  ∀ k, (- B ≤ t k ≤ B)%Z.

Definition weightsBounded (B : Z) (st : Store) : Prop :=
  tableBounded B (historyTable (searchParams st))
  ∧ from_option (tableBounded B) True (counterMoveHistory (ssi st))
  ∧ from_option (tableBounded B) True (followupMoveHistory (ssi st)).

(** Two stores hold the same weights in the three history tables. *)
Definition sameWeights (st st' : Store) : Prop :=
  (∀ k, historyTable (searchParams st') k = historyTable (searchParams st) k)
  ∧ option_Forall2 (λ t t' : PieceSquareTable, ∀ k, t' k = t k)
      (counterMoveHistory (ssi st)) (counterMoveHistory (ssi st'))
  ∧ option_Forall2 (λ t t' : PieceSquareTable, ∀ k, t' k = t k)
      (followupMoveHistory (ssi st)) (followupMoveHistory (ssi st')).

(** The entries of a list in front of the first entry equal to
    [bestMove]; the whole list when no entry equals it. *)
Definition beforeFirst (bestMove : Move) (l : list Move) : list Move :=
  match list_find (λ m, m = bestMove) l with
  | Some (i, _) => take i l
  | None => l
  end.

(** The moves that are no captures among the first [index - 1] entries of
    the list, as far as they stand in front of the best move. *)
Definition penalised (mo : MoveOrder) (bestMove : Move) : list Move :=
  filter (λ m, isCapture m = false)
    (beforeFirst bestMove (take (index mo - 1) (legalMoves mo))).

(** [n] calls of [nextMove] in a row: what they return, in the order of
    the calls, and the state after the last one. *)
Fixpoint pullN (n : nat) (st : Store) (mo : MoveOrder) : list Move * MoveOrder :=
  match n with
  | 0 => ([], mo)
  | S n' =>
      let r := nextMove st mo in
      let r' := pullN n' st r.2 in
      (r.1 :: r'.1, r'.2)
  end.

(** The values of the C++ type [int] (32 bits), and the values that are
    small against the gaps between the tiers of the scores: sums of a tier
    constant and of up to three small values are values of [int]. *)
Definition fitsInt (z : Z) : Prop := (- 2 ^ 31 ≤ z < 2 ^ 31)%Z.

Definition smallValue (z : Z) : Prop := (- 2 ^ 28 < z < 2 ^ 28)%Z.

End Protocol.

(** ** An example node *)

Module Example.

Local Open Scope Z_scope.

(** An encoding in the style of common.h: the start square in bits 0-5,
    the end square in bits 6-11, the promotion piece in bits 12-14 and the
    capture flag in bit 15. *)
Definition encoding : MoveEncoding :=
  {| NULL_MOVE := 0;
     QUEENS := 4;
     isCapture m := Z.testbit m 15;
     getPromotion m := Z.land (Z.shiftr m 12) 7;
     getStartSq m := Z.land m 63;
     getEndSq m := Z.land (Z.shiftr m 6) 63 |}.

Definition encode (startSq endSq promotion : Z) (capture : bool) : Move :=
  Z.lor (Z.lor startSq (Z.shiftl endSq 6))
        (Z.lor (Z.shiftl promotion 12) (if capture then Z.shiftl 1 15 else 0)).

(** The five moves of the example: the hash move e2-e4, the captures
    d4xe5 and c1xg5, the killer g1-f3 and the quiet move b1-c3. *)
Definition moveH : Move := encode 12 28 0 false.
Definition moveC1 : Move := encode 27 36 0 true.
Definition moveC2 : Move := encode 2 38 0 true.
Definition moveK : Move := encode 6 21 0 false.
Definition moveQ : Move := encode 1 18 0 false.

(** Pawns (0) on e2 and d4, knights (1) on b1 and g1, a bishop (2) on c1;
    d4xe5 wins material (SEE +200), c1xg5 loses some (SEE -50). *)
Definition board : Board :=
  {| getSEEForMove _ m :=
       if decide (m = moveC1) then 200
       else if decide (m = moveC2) then (-50) else 0;
     getMVVLVAScore _ m :=
       if decide (m = moveC1) then 6
       else if decide (m = moveC2) then 3 else 0;
     getExchangeScore _ _ := 0;
     getPieceOnSquare _ sq :=
       if decide (sq = 12 ∨ sq = 27) then 0
       else if decide (sq = 1 ∨ sq = 6) then 1
       else if decide (sq = 2) then 2 else (-1) |}.

(** Ply 3 with g1-f3 as its first killer; the knight move to f3 has the
    history weight 100, every other weight is 0; the node has a
    counter-move table and no follow-up table. *)
Definition store : Store :=
  {| b := board;
     searchParams :=
       {| killers p i := if decide (p = 3 ∧ i = 0) then moveK else 0;
          historyTable key := if decide (key = (0, 1, 21)) then 100 else 0 |};
     ssi :=
       {| ply := 3;
          counterMoveHistory := Some (λ _, 0);
          followupMoveHistory := None |} |}.

(** The move list as the move generator fills it, captures first. *)
Definition moves : list Move := [moveC1; moveC2; moveH; moveK; moveQ].





End Example.

(** ** Elementary facts *)

Section Basics.
Context `{!MoveEncoding}.

Lemma swap_length `{!Inhabited A} (l : list A) i j : length (swap l i j) = length l.
Proof. unfold swap. by rewrite !length_insert. Qed.

Lemma swap_same `{!Inhabited A} (l : list A) i : swap l i i = l.
Proof.
  unfold swap. destruct (decide (i < length l)) as [Hi|Hi].
  - rewrite list_insert_insert_eq. apply list_insert_id.
    by apply list_lookup_lookup_total_lt.
  - rewrite !list_insert_ge; [done|lia|rewrite length_insert; lia].
Qed.

Lemma findQuietStart_fields mo :
  mgStage (findQuietStart mo) = mgStage mo ∧
  legalMoves (findQuietStart mo) = legalMoves mo ∧
  scores (findQuietStart mo) = scores mo ∧
  index (findQuietStart mo) = index mo ∧
  hashed (findQuietStart mo) = hashed mo ∧
  color (findQuietStart mo) = color mo ∧
  depth (findQuietStart mo) = depth mo ∧
  isPVNode (findQuietStart mo) = isPVNode mo.
Proof. unfold findQuietStart. by destruct (list_find _ _) as [[??]|]. Qed.

Lemma findQuietStart_le mo :
  quietStart (findQuietStart mo) ≤ length (legalMoves mo).
Proof.
  unfold findQuietStart.
  destruct (list_find _ _) as [[i x]|] eqn:E; simpl; [|done].
  apply list_find_Some in E as (Hi & _). apply lookup_lt_Some in Hi. lia.
Qed.

Lemma enterCaptures_fields st mo :
  mgStage (enterCaptures st mo) = STAGE_CAPTURES ∧
  legalMoves (enterCaptures st mo) = legalMoves mo ∧
  index (enterCaptures st mo) = index mo ∧
  hashed (enterCaptures st mo) = hashed mo ∧
  quietStart (enterCaptures st mo) = quietStart (findQuietStart mo) ∧
  length (scores (enterCaptures st mo))
    = length (scores mo) + quietStart (findQuietStart mo).
Proof.
  destruct (findQuietStart_fields mo) as (?&?&Hs&?&?&_).
  unfold enterCaptures, scoreCaptures; simpl.
  rewrite length_app, length_fmap, length_seq, Hs. done.
Qed.

(** *** The stage only moves forward *)

Lemma generateMoves_arrow st mo :
  stageArrow (mgStage mo) (mgStage (generateMoves st mo)).
Proof.
  unfold generateMoves. destruct (mgStage mo) eqn:E.
  - case_decide; [simpl; constructor|].
    rewrite (proj1 (enterCaptures_fields st mo)). constructor.
  - rewrite (proj1 (enterCaptures_fields st mo)). constructor.
  - simpl. constructor.
  - rewrite E. constructor.
Qed.

Lemma stageArrow_rank s s' : stageArrow s s' → stageRank s ≤ stageRank s'.
Proof. destruct 1; simpl; lia. Qed.

Lemma generateMoves_rank st mo :
  stageRank (mgStage mo) ≤ stageRank (mgStage (generateMoves st mo)).
Proof. apply stageArrow_rank, generateMoves_arrow. Qed.

Lemma generateMoves_progress st mo :
  mgStage mo ≠ STAGE_QUIETS →
  stageRank (mgStage mo) < stageRank (mgStage (generateMoves st mo)).
Proof.
  intros Hne. pose proof (generateMoves_arrow st mo) as Ha.
  inversion Ha as [E1 E2|E1 E2|E1 E2|E1 E2|E1 E2]; simpl; try lia.
  congruence.
Qed.

Lemma generateMoves_quiets st mo :
  mgStage mo = STAGE_QUIETS → generateMoves st mo = mo.
Proof. intros E. unfold generateMoves. by rewrite E. Qed.

Lemma generateMoves_index st mo : index (generateMoves st mo) = index mo.
Proof.
  unfold generateMoves. destruct (mgStage mo); try done.
  - case_decide; [done|]. apply enterCaptures_fields.
  - apply enterCaptures_fields.
Qed.

Lemma refill_rank n st mo :
  stageRank (mgStage mo) ≤ stageRank (mgStage (refill n st mo)).
Proof.
  revert mo. induction n as [|n IH]; intros mo; simpl; [done|].
  repeat case_decide; try done.
  etrans; [apply (generateMoves_rank st)|apply IH].
Qed.

Lemma refill_index n st mo : index (refill n st mo) = index mo.
Proof.
  revert mo. induction n as [|n IH]; intros mo; simpl; [done|].
  repeat case_decide; try done. by rewrite IH, generateMoves_index.
Qed.

(** Three iterations are enough for the loop of [nextMove], and further
    iterations change nothing: the loop has ended. *)
Lemma refill_done n st mo :
  3 - stageRank (mgStage mo) ≤ n →
  index (refill n st mo) < length (scores (refill n st mo))
  ∨ mgStage (refill n st mo) = STAGE_QUIETS.
Proof.
  revert mo. induction n as [|n IH]; intros mo Hn; simpl.
  - right. destruct (mgStage mo); simpl in Hn; try lia; done.
  - case_decide; [|left; lia].
    case_decide; [by right|].
    apply IH. pose proof (generateMoves_progress st mo ltac:(done)). lia.
Qed.

Lemma refill_enough st mo :
  index (refill 3 st mo) < length (scores (refill 3 st mo))
  ∨ mgStage (refill 3 st mo) = STAGE_QUIETS.
Proof. apply refill_done. lia. Qed.

Lemma refill_fixed n st mo :
  index mo < length (scores mo) ∨ mgStage mo = STAGE_QUIETS →
  refill n st mo = mo.
Proof.
  intros H0. destruct n as [|n]; simpl; [done|].
  repeat case_decide; try done. destruct H0; [lia|done].
Qed.

Lemma refill_refill n m st mo :
  3 - stageRank (mgStage mo) ≤ n →
  refill m st (refill n st mo) = refill n st mo.
Proof. intros Hn. apply refill_fixed, refill_done, Hn. Qed.

Lemma refill_more n st mo : 3 ≤ n → refill n st mo = refill 3 st mo.
Proof.
  intros Hn. revert mo.
  assert (∀ k j mo, 3 - stageRank (mgStage mo) ≤ k → refill (k + j) st mo = refill k st mo) as Hk.
  { induction k as [|k IH]; intros j mo Hr; simpl.
    - apply refill_fixed. right. destruct (mgStage mo); simpl in Hr; try lia; done.
    - repeat case_decide; try done. apply IH.
      pose proof (generateMoves_progress st mo ltac:(done)). lia. }
  intros mo. replace n with (3 + (n - 3)) by lia. apply Hk. lia.
Qed.

End Basics.

Global Arguments refill : simpl never.
Global Arguments generateMoves : simpl never.
Global Arguments enterCaptures : simpl never.

Section Calls.
Context `{!MoveEncoding}.

Lemma nextMove_rank st mo :
  stageRank (mgStage mo) ≤ stageRank (mgStage (nextMove st mo).2).
Proof.
  unfold nextMove. case_decide; [done|].
  case_decide; simpl; [apply refill_rank|].
  case_decide; simpl.
  - etrans; [apply (refill_rank 3 st)|]. etrans; [|apply generateMoves_rank]. done.
  - apply refill_rank.
Qed.

Lemma runCall_rank mo c : stageRank (mgStage mo) ≤ stageRank (mgStage (runCall mo c)).
Proof. destruct c; simpl; [apply generateMoves_rank|apply nextMove_rank]. Qed.

Lemma runCalls_rank cs mo :
  stageRank (mgStage mo) ≤ stageRank (mgStage (runCalls cs mo)).
Proof.
  revert mo. induction cs as [|c cs IH]; intros mo; simpl; [done|].
  etrans; [apply (runCall_rank mo c)|apply IH].
Qed.

Lemma runCalls_app cs1 cs2 mo :
  runCalls (cs1 ++ cs2) mo = runCalls cs2 (runCalls cs1 mo).
Proof. apply foldl_app. Qed.

End Calls.

(** ** The invariant of the public functions and the moves still to come *)

Section Invariant.
Context `{!MoveEncoding}.

Lemma wf_new c d pv h l : wf (MoveOrder_new c d pv h l).
Proof. by split. Qed.

Lemma generateMoves_scores_prefix st mo :
  scores mo `prefix_of` scores (generateMoves st mo).
Proof.
  assert (scores mo `prefix_of` scores (enterCaptures st mo)) as He.
  { unfold enterCaptures, scoreCaptures; simpl.
    rewrite (proj1 (proj2 (proj2 (findQuietStart_fields mo)))).
    by apply prefix_app_r. }
  unfold generateMoves. destruct (mgStage mo); try done.
  - by case_decide.
  - simpl. by apply prefix_app_r.
Qed.

Lemma refill_scores_prefix n st mo : scores mo `prefix_of` scores (refill n st mo).
Proof.
  revert mo. induction n as [|n IH]; intros mo; [done|].
  unfold refill; fold refill. repeat case_decide; try done.
  etrans; [apply (generateMoves_scores_prefix st)|apply IH].
Qed.

Lemma wf_generateMoves st mo : wf mo → wf (generateMoves st mo).
Proof.
  intros [Hi Hs].
  assert (mgStage mo = STAGE_NONE ∨ mgStage mo = STAGE_HASH_MOVE →
          wf (enterCaptures st mo)) as He.
  { intros Hst.
    assert (scores mo = []) as Hnil by (destruct Hst as [E|E]; rewrite E in Hs; tauto).
    destruct (enterCaptures_fields st mo) as (E1&E2&E3&_&E5&E6).
    rewrite Hnil in Hi, E6. cbn [length Nat.add] in Hi, E6.
    split; [rewrite E3, E6; lia|].
    rewrite E1, E2, E5, E6. split; [done|apply findQuietStart_le]. }
  unfold generateMoves. destruct (mgStage mo) eqn:E; auto.
  - case_decide; [|auto]. by split.
  - split; simpl.
    + rewrite length_app. lia.
    + rewrite length_app, length_fmap, length_seq. lia.
  - split; [done|]. by rewrite E.
Qed.

Lemma wf_refill n st mo : wf mo → wf (refill n st mo).
Proof.
  revert mo. induction n as [|n IH]; intros mo Hwf; [done|].
  unfold refill; fold refill. repeat case_decide; try done.
  by apply IH, wf_generateMoves.
Qed.

Lemma pending_generateMoves st mo :
  wf mo → pending (generateMoves st mo) = pending mo.
Proof.
  intros [Hi Hs].
  assert (pending (enterCaptures st mo) = drop (index mo) (legalMoves mo)) as He.
  { destruct (enterCaptures_fields st mo) as (E1&E2&E3&_).
    unfold pending. by rewrite E1, E2, E3. }
  unfold generateMoves, pending at 2. destruct (mgStage mo) eqn:E.
  - rewrite Hs in Hi. simpl in Hi. assert (index mo = 0) as Hz by lia.
    case_decide; [|by rewrite He, Hz].
    unfold pending; simpl. by rewrite Hz.
  - done.
  - done.
  - unfold pending. by rewrite E.
Qed.

Lemma pending_refill n st mo : wf mo → pending (refill n st mo) = pending mo.
Proof.
  revert mo. induction n as [|n IH]; intros mo Hwf; [done|].
  unfold refill; fold refill. repeat case_decide; try done.
  rewrite IH by by apply wf_generateMoves. by apply pending_generateMoves.
Qed.

(** The moves below the cursor have been returned; no generation step
    touches them. *)
Lemma take_generateMoves st mo :
  wf mo →
  take (index mo) (legalMoves (generateMoves st mo))
  = take (index mo) (legalMoves mo).
Proof.
  intros [Hi Hs]. unfold generateMoves. destruct (mgStage mo) eqn:E; try done.
  - rewrite Hs in Hi. simpl in Hi. replace (index mo) with 0 by lia. done.
  - by rewrite (proj1 (proj2 (enterCaptures_fields st mo))).
Qed.

Lemma take_refill n st mo :
  wf mo →
  take (index mo) (legalMoves (refill n st mo)) = take (index mo) (legalMoves mo).
Proof.
  revert mo. induction n as [|n IH]; intros mo Hwf; [done|].
  unfold refill; fold refill. repeat case_decide; try done.
  rewrite <-(generateMoves_index st mo) at 1.
  rewrite IH by by apply wf_generateMoves.
  rewrite generateMoves_index. by apply take_generateMoves.
Qed.

(** After the loop of [nextMove] the stage is [STAGE_CAPTURES] or later. *)
Lemma refill_stage st mo :
  wf mo →
  mgStage (refill 3 st mo) = STAGE_CAPTURES ∨ mgStage (refill 3 st mo) = STAGE_QUIETS.
Proof.
  intros Hwf. destruct (wf_refill 3 st mo Hwf) as [Hi Hs].
  destruct (refill_enough st mo) as [Hlt|Hq]; [|by right].
  destruct (mgStage (refill 3 st mo)); auto.
  - rewrite Hs in Hlt. simpl in Hlt. lia.
  - destruct Hs as [Hs _]. rewrite Hs in Hlt. simpl in Hlt. lia.
Qed.

(** *** The scan for the best score *)

Lemma findBest_spec (sc : list Z) (idx : nat) :
  idx < length sc →
  let best := findBest sc idx in
  idx ≤ best.1 < length sc
  ∧ best.2 = sc !!! best.1
  ∧ (∀ j, idx ≤ j < length sc → (sc !!! j ≤ best.2)%Z)
  ∧ (∀ j, idx ≤ j < best.1 → (sc !!! j < best.2)%Z).
Proof.
  intros Hidx. unfold findBest.
  assert (∀ n (acc : nat * Z),
    S idx + n ≤ length sc →
    idx ≤ acc.1 < S idx →
    acc.2 = sc !!! acc.1 →
    (∀ j, idx ≤ j < S idx → (sc !!! j ≤ acc.2)%Z) →
    (∀ j, idx ≤ j < acc.1 → (sc !!! j < acc.2)%Z) →
    ∀ k, k ≤ n →
    let r := foldl (λ best i, if decide (sc !!! i > best.2)%Z then (i, sc !!! i) else best)
                   acc (seq (S idx) k) in
    idx ≤ r.1 < S idx + k
    ∧ r.2 = sc !!! r.1
    ∧ (∀ j, idx ≤ j < S idx + k → (sc !!! j ≤ r.2)%Z)
    ∧ (∀ j, idx ≤ j < r.1 → (sc !!! j < r.2)%Z)) as Hloop.
  { intros n acc Hn Ha1 Ha2 Ha3 Ha4 k. induction k as [|k IH]; intros Hk.
    - simpl. repeat split; try lia; auto. intros j Hj. apply Ha3. lia.
    - rewrite seq_S, foldl_app. simpl.
      destruct IH as (I1 & I2 & I3 & I4); [lia|].
      set (r := foldl _ acc (seq (S idx) k)) in *.
      case_decide as Hgt; simpl.
      + repeat split; try lia.
        * intros j Hj. destruct (decide (j = S (idx + k))) as [->|]; [lia|].
          specialize (I3 j). lia.
        * intros j Hj. specialize (I3 j). lia.
      + repeat split; try lia; auto.
        intros j Hj. destruct (decide (j = S (idx + k))) as [->|]; [lia|].
        apply I3. lia. }
  specialize (Hloop (length sc - S idx) (idx, sc !!! idx)).
  simpl in Hloop.
  destruct (Hloop ltac:(lia) ltac:(lia) eq_refl) with (k := length sc - S idx)
    as (I1 & I2 & I3 & I4).
  - intros j Hj. replace j with idx by lia. lia.
  - intros j Hj. lia.
  - done.
  - simpl. repeat split; try lia; auto. intros j Hj. apply I3. lia.
Qed.

(** *** Swapping two entries *)

Lemma swap_lookup `{!Inhabited A} (l : list A) i j k :
  i < length l → j < length l →
  swap l i j !! k =
    if decide (k = j) then l !! i else if decide (k = i) then l !! j else l !! k.
Proof.
  intros Hi Hj. unfold swap.
  rewrite list_lookup_insert, length_insert.
  destruct (decide (k = j)) as [->|Hkj].
  - rewrite decide_True by done. by rewrite list_lookup_lookup_total_lt.
  - rewrite decide_False by (intros [? _]; congruence).
    rewrite list_lookup_insert.
    destruct (decide (k = i)) as [->|Hki].
    + rewrite decide_True by done. by rewrite list_lookup_lookup_total_lt.
    + by rewrite decide_False by (intros [? _]; congruence).
Qed.

Lemma swap_Permutation `{!Inhabited A} (l : list A) i j :
  i < length l → j < length l → swap l i j ≡ₚ l.
Proof.
  intros Hi Hj. apply Permutation_inj. split; [apply swap_length|].
  exists (λ k, if decide (k = j) then i else if decide (k = i) then j else k).
  split.
  - intros x y. repeat case_decide; intros; simplify_eq; done.
  - intros k. rewrite swap_lookup by done. by repeat case_decide.
Qed.

Lemma swap_take `{!Inhabited A} (l : list A) i j n :
  n ≤ i → n ≤ j → take n (swap l i j) = take n l.
Proof. intros. unfold swap. by rewrite !take_insert_ge. Qed.

Lemma swap_drop_Permutation `{!Inhabited A} (l : list A) i j n :
  n ≤ i < length l → n ≤ j < length l → drop n (swap l i j) ≡ₚ drop n l.
Proof.
  intros Hi Hj.
  apply (Permutation_app_inv_l (take n l)).
  rewrite <-(swap_take l i j n) at 1 by lia.
  rewrite !take_drop. apply swap_Permutation; lia.
Qed.

End Invariant.

(** ** One call of [nextMove] *)

Section Selection.
Context `{!MoveEncoding}.

Lemma generateMoves_legalMoves st mo :
  mgStage mo ≠ STAGE_NONE → legalMoves (generateMoves st mo) = legalMoves mo.
Proof.
  intros Hne. unfold generateMoves. destruct (mgStage mo); try done.
  apply enterCaptures_fields.
Qed.

Lemma generateMoves_quietStart st mo :
  mgStage mo = STAGE_CAPTURES ∨ mgStage mo = STAGE_QUIETS →
  quietStart (generateMoves st mo) = quietStart mo.
Proof. intros [E|E]; unfold generateMoves; by rewrite E. Qed.

(** What [selectBest] returns on a state with a scored entry under the
    cursor: the move paired with the greatest score behind the cursor,
    which is swapped to the cursor before the cursor moves on. *)
Lemma selectBest_spec st mo :
  wf mo →
  index mo < length (scores mo) →
  let best := findBest (scores mo) (index mo) in
  let r := selectBest st mo in
  wf r.2
  ∧ (mgStage r.2 = STAGE_CAPTURES ∨ mgStage r.2 = STAGE_QUIETS)
  ∧ index r.2 = S (index mo)
  ∧ legalMoves r.2 = swap (legalMoves mo) best.1 (index mo)
  ∧ swap (scores mo) best.1 (index mo) `prefix_of` scores r.2
  ∧ legalMoves mo !! best.1 = Some r.1
  ∧ legalMoves r.2 !! index mo = Some r.1
  ∧ quietStart r.2 = quietStart mo
  ∧ stageRank (mgStage mo) ≤ stageRank (mgStage r.2)
  ∧ (mgStage r.2 = STAGE_CAPTURES → (SCORE_WINNING_CAPTURE ≤ best.2)%Z
       ∧ scores r.2 = swap (scores mo) best.1 (index mo)).
Proof.
  intros Hwf Hlt best r.
  destruct (findBest_spec (scores mo) (index mo) Hlt) as (Hb1 & Hb2 & Hb3 & Hb4).
  fold best in Hb1, Hb2, Hb3, Hb4.
  destruct Hwf as [Hi Hs].
  assert (mgStage mo = STAGE_CAPTURES ∨ mgStage mo = STAGE_QUIETS) as Hst.
  { destruct (mgStage mo); auto.
    - rewrite Hs in Hlt; simpl in Hlt; lia.
    - destruct Hs as [Hs _]. rewrite Hs in Hlt; simpl in Hlt; lia. }
  assert (length (scores mo) ≤ length (legalMoves mo)) as Hlen.
  { destruct Hst as [E|E]; rewrite E in Hs; lia. }
  set (mo2 := swapBest best.1 mo).
  assert (wf mo2) as Hwf2.
  { split; simpl; rewrite ?swap_length; [done|].
    destruct Hst as [E|E]; rewrite E in Hs |- *; done. }
  set (mo3 := if decide (mgStage mo2 = STAGE_CAPTURES ∧ (best.2 < SCORE_WINNING_CAPTURE)%Z)
              then generateMoves st mo2 else mo2).
  assert (r = (legalMoves mo3 !!! index mo3, set_index (S (index mo3)) mo3)) as Hr by done.
  assert (wf mo3) as Hwf3 by (unfold mo3; case_decide; [by apply wf_generateMoves|done]).
  assert (legalMoves mo3 = swap (legalMoves mo) best.1 (index mo)) as Hl3.
  { unfold mo3; case_decide as Hc; [|done].
    rewrite generateMoves_legalMoves; [done|]. destruct Hc as [-> _]. done. }
  assert (index mo3 = index mo) as Hi3.
  { unfold mo3; case_decide; [|done]. by rewrite generateMoves_index. }
  assert (scores mo2 `prefix_of` scores mo3) as Hp3.
  { unfold mo3; case_decide; [|done]. apply generateMoves_scores_prefix. }
  assert (stageRank (mgStage mo) ≤ stageRank (mgStage mo3)) as Hrk.
  { unfold mo3; case_decide; [|done].
    change (mgStage mo) with (mgStage mo2). apply generateMoves_rank. }
  assert (mgStage mo3 = STAGE_CAPTURES ∨ mgStage mo3 = STAGE_QUIETS) as Hst3.
  { destruct (mgStage mo3), Hst as [E|E]; rewrite E in Hrk; simpl in Hrk; auto; lia. }
  assert (quietStart mo3 = quietStart mo) as Hq3.
  { unfold mo3; case_decide; [|done]. by rewrite generateMoves_quietStart. }
  assert (swap (legalMoves mo) best.1 (index mo) !! index mo
          = legalMoves mo !! best.1) as Hsw.
  { rewrite swap_lookup by lia. by rewrite decide_True. }
  assert (legalMoves mo !! best.1 = Some (legalMoves mo3 !!! index mo3)) as Hm.
  { rewrite <-Hsw, Hl3, Hi3. apply list_lookup_lookup_total_lt.
    rewrite swap_length. lia. }
  rewrite Hr. simpl. rewrite Hi3, Hl3. rewrite Hl3, Hi3 in Hm.
  split_and!; try done.
  - destruct Hwf3 as [Hi' Hs']. split; simpl.
    + apply prefix_length in Hp3. simpl in Hp3. rewrite swap_length in Hp3. lia.
    + destruct Hst3 as [E|E]; rewrite E in Hs' |- *; done.
  - by rewrite Hsw.
  - intros Hc. unfold mo3 in Hc |- *. case_decide as Hd.
    + pose proof (generateMoves_progress st mo2) as Hp.
      destruct Hd as [Hd _]. rewrite Hd, Hc in Hp. simpl in Hp.
      specialize (Hp ltac:(done)). lia.
    + split; [|done]. simpl in Hc, Hd.
      destruct (decide (best.2 < SCORE_WINNING_CAPTURE)%Z); [|lia]. tauto.
Qed.

(** A call of [nextMove] outside the stage [STAGE_HASH_MOVE] either finds
    nothing left to return and reports it, or returns one of the moves
    still to come and leaves the others. *)
Lemma nextMove_step st mo :
  wf mo → mgStage mo ≠ STAGE_HASH_MOVE →
  let r := nextMove st mo in
  wf r.2
  ∧ (mgStage r.2 = STAGE_CAPTURES ∨ mgStage r.2 = STAGE_QUIETS)
  ∧ ((pending mo = [] ∧ r.1 = NULL_MOVE ∧ mgStage r.2 = STAGE_QUIETS
      ∧ length (scores r.2) ≤ index r.2
      ∧ index r.2 = index mo ∧ scores r.2 = scores mo ∧ pending r.2 = []
      ∧ legalMoves r.2 = take (index mo) (legalMoves mo))
     ∨ (pending mo ≡ₚ r.1 :: pending r.2 ∧ index r.2 = S (index mo)
        ∧ take (S (index mo)) (legalMoves r.2)
          = take (index mo) (legalMoves mo) ++ [r.1])).
Proof.
  intros Hwf Hne r. unfold r, nextMove.
  rewrite decide_False by done.
  pose proof (wf_refill 3 st mo Hwf) as Hwf1.
  pose proof (pending_refill 3 st mo Hwf) as Hp1.
  pose proof (refill_stage st mo Hwf) as Hst1.
  pose proof (refill_enough st mo) as Hen.
  pose proof (refill_index 3 st mo) as Hidx.
  pose proof (refill_scores_prefix 3 st mo) as Hpre.
  pose proof (take_refill 3 st mo Hwf) as Htk.
  set (mo1 := refill 3 st mo) in *.
  case_decide as Hex.
  - simpl. split_and!; try done. left.
    destruct Hen as [Hlt|Hq]; [lia|].
    assert (pending mo1 = []) as Hnil.
    { unfold pending. rewrite Hq. apply drop_ge.
      destruct Hwf1 as [_ Hs]. rewrite Hq in Hs. lia. }
    split_and!; try done; try congruence.
    + symmetry. apply prefix_length_eq; [done|].
      destruct Hwf as [Hi _]. lia.
    + rewrite <-Htk, <-Hidx. symmetry. apply take_ge.
      destruct Hwf1 as [_ Hs]. rewrite Hq in Hs. lia.
  - destruct (selectBest_spec st mo1 Hwf1 ltac:(lia))
      as (W & S1 & I1 & L1 & _ & M1 & M2 & _).
    split_and!; try done. right.
    assert (index mo1 ≤ (findBest (scores mo1) (index mo1)).1 < length (legalMoves mo1))
      as Hbest.
    { pose proof (findBest_spec (scores mo1) (index mo1) ltac:(lia)) as (Hb & _).
      destruct Hwf1 as [_ Hs]. destruct Hst1 as [E|E]; rewrite E in Hs; lia. }
    split_and!; [|congruence|].
    2:{ rewrite <-Htk, <-Hidx.
        rewrite (take_S_r _ _ _ M2). f_equal.
        rewrite L1. apply swap_take; lia. }
    rewrite <-Hp1.
    assert (pending mo1 = drop (index mo1) (legalMoves mo1)) as ->.
    { unfold pending. destruct Hst1 as [-> | ->]; done. }
    assert (pending (selectBest st mo1).2
            = drop (S (index mo1)) (legalMoves (selectBest st mo1).2)) as ->.
    { unfold pending. rewrite I1. destruct S1 as [-> | ->]; done. }
    rewrite <-(drop_S _ _ _ M2). rewrite L1.
    symmetry. apply swap_drop_Permutation; lia.
Qed.

Lemma wf_nextMove st mo : wf mo → wf (nextMove st mo).2.
Proof.
  intros Hwf. destruct (decide (mgStage mo = STAGE_HASH_MOVE)) as [E|E].
  - unfold nextMove. by rewrite decide_True.
  - by apply nextMove_step.
Qed.

Lemma wf_runCalls cs mo : wf mo → wf (runCalls cs mo).
Proof.
  revert mo. induction cs as [|c cs IH]; intros mo Hwf; [done|].
  simpl. apply IH. destruct c; simpl; [by apply wf_generateMoves|by apply wf_nextMove].
Qed.

(** Every state that calls of the public functions reach from a new
    [MoveOrder] satisfies the invariant. *)
Lemma wf_reachable cs c d pv h l : wf (runCalls cs (MoveOrder_new c d pv h l)).
Proof. apply wf_runCalls, wf_new. Qed.

End Selection.

(** ** Pulling until the sentinel *)

Section Pulling.
Context `{!MoveEncoding}.

Lemma removeHashed_Permutation h l : h ∈ l → h :: removeHashed h l ≡ₚ l.
Proof.
  intros Hin. unfold removeHashed.
  destruct (list_find _ l) as [[i x]|] eqn:E.
  - apply list_find_Some in E as (Hi & -> & _).
    symmetry. by apply delete_Permutation.
  - apply list_find_None in E. rewrite list.Forall_forall in E.
    by destruct (E h Hin).
Qed.

Lemma removeHashed_absent h l : h ∉ l → removeHashed h l = l.
Proof.
  intros Hin. unfold removeHashed.
  destruct (list_find _ l) as [[i x]|] eqn:E; [|done].
  apply list_find_Some in E as (Hi & -> & _).
  destruct Hin. by eapply list_elem_of_lookup_2.
Qed.

Lemma removeHashed_sublist h l : removeHashed h l `sublist_of` l.
Proof.
  unfold removeHashed. destruct (list_find _ l) as [[i x]|]; [|done].
  apply sublist_delete.
Qed.

Lemma removeHashed_subseteq h l : removeHashed h l ⊆ l.
Proof. apply sublist_subseteq, removeHashed_sublist. Qed.

(** More calls than moves to come are enough to meet the sentinel; the
    moves returned on the way are the moves that were to come. *)
Lemma pullAll_pending st fuel mo :
  wf mo → mgStage mo ≠ STAGE_HASH_MOVE →
  NULL_MOVE ∉ pending mo →
  length (pending mo) < fuel →
  ∃ ms mo', pullAll fuel st mo = Some (ms, mo')
    ∧ ms ≡ₚ pending mo
    ∧ wf mo' ∧ mgStage mo' = STAGE_QUIETS
    ∧ length (scores mo') ≤ index mo'.
Proof.
  revert mo. induction fuel as [|fuel IH]; intros mo Hwf Hne Hnull Hlen; [lia|].
  simpl. destruct (nextMove_step st mo Hwf Hne) as (W & S1 & Hcase).
  destruct Hcase as [(P0 & R1 & Q & E & _)|(Hperm & Hidx & _)].
  - rewrite decide_True by done. exists [], (nextMove st mo).2.
    rewrite P0. split_and!; done.
  - assert ((nextMove st mo).1 ∈ pending mo) as Hin.
    { rewrite Hperm. by left. }
    rewrite decide_False by (intros E; rewrite E in Hin; done).
    destruct (IH (nextMove st mo).2) as (ms & mo' & Hp & Hms & W' & Q' & E').
    + done.
    + destruct S1 as [-> | ->]; done.
    + intros Hn. apply Hnull. rewrite Hperm. by right.
    + apply Permutation_length in Hperm. simpl in Hperm. lia.
    + rewrite Hp. exists ((nextMove st mo).1 :: ms), mo'.
      split_and!; try done. by rewrite Hperm, Hms.
Qed.

Lemma pullAll_more st fuel k mo r :
  pullAll fuel st mo = Some r → pullAll (fuel + k) st mo = Some r.
Proof.
  revert mo r. induction fuel as [|fuel IH]; intros mo r; simpl; [done|].
  case_decide; [done|].
  destruct (pullAll fuel st _) as [[ms mo']|] eqn:E; [|done].
  intros <-. by rewrite (IH _ _ E).
Qed.

Lemma pending_new c d pv h l :
  pending (MoveOrder_new c d pv h l)
  = if decide (h ≠ NULL_MOVE) then removeHashed h l else l.
Proof. done. Qed.

End Pulling.

(** ** Moves and scores stay paired *)

Section Alignment.
Context `{!MoveEncoding}.

Lemma sameNode_refl mo : sameNode mo mo.
Proof. by repeat split. Qed.

Lemma sameNode_trans mo1 mo2 mo3 :
  sameNode mo1 mo2 → sameNode mo2 mo3 → sameNode mo1 mo3.
Proof. unfold sameNode. intros (?&?&?&?) (?&?&?&?). split_and!; congruence. Qed.

Lemma scoreOf_sameNode st mo mo' m :
  sameNode mo mo' → scoreOf st mo' m = scoreOf st mo m.
Proof.
  intros (Hc & _ & Hp & _).
  unfold scoreOf, captureScore, quietScore. by rewrite Hc, Hp.
Qed.

Lemma sameNode_enterCaptures st mo : sameNode mo (enterCaptures st mo).
Proof.
  destruct (findQuietStart_fields mo) as (_&_&_&_&?&?&?&?).
  unfold enterCaptures, scoreCaptures, sameNode; simpl. done.
Qed.

Lemma sameNode_generateMoves st mo : sameNode mo (generateMoves st mo).
Proof.
  unfold generateMoves. destruct (mgStage mo);
    try case_decide; try apply sameNode_enterCaptures; by repeat split.
Qed.

Lemma sameNode_refill n st mo : sameNode mo (refill n st mo).
Proof.
  revert mo. induction n as [|n IH]; intros mo; [apply sameNode_refl|].
  unfold refill; fold refill. repeat case_decide; try apply sameNode_refl.
  eapply sameNode_trans; [apply (sameNode_generateMoves st)|apply IH].
Qed.

Lemma sameNode_selectBest st mo : sameNode mo (selectBest st mo).2.
Proof.
  unfold selectBest. simpl. case_decide; [|by repeat split].
  match goal with |- context [generateMoves st ?m] =>
    destruct (sameNode_generateMoves st m) as (?&?&?&?) end.
  by repeat split.
Qed.

Lemma sameNode_nextMove st mo : sameNode mo (nextMove st mo).2.
Proof.
  unfold nextMove. repeat case_decide; simpl;
    [apply sameNode_refl|apply sameNode_refill|].
  eapply sameNode_trans; [apply (sameNode_refill 3 st)|apply sameNode_selectBest].
Qed.

Lemma capturesFirst_delete l k : capturesFirst l → capturesFirst (delete k l).
Proof.
  intros Hcf i j mi mj Hij. rewrite !list_lookup_delete.
  repeat case_decide; intros Hi Hj; eapply Hcf; try exact Hi; try exact Hj; lia.
Qed.

Lemma capturesFirst_removeHashed h l :
  capturesFirst l → capturesFirst (removeHashed h l).
Proof.
  intros Hcf. unfold removeHashed.
  destruct (list_find _ l) as [[i x]|]; [|done]. by apply capturesFirst_delete.
Qed.

(** [findQuietStart] on a list with its captures first: the captures are
    the moves below [quietStart]. *)
Lemma findQuietStart_split mo i m :
  capturesFirst (legalMoves mo) →
  legalMoves mo !! i = Some m →
  (i < quietStart (findQuietStart mo) ↔ isCapture m = true).
Proof.
  intros Hcf Hi. unfold findQuietStart.
  destruct (list_find _ _) as [[q x]|] eqn:E; simpl.
  - apply list_find_Some in E as (Hq & Hx & Hbefore). split.
    + intros Hlt. specialize (Hbefore i m Hi Hlt). by destruct (isCapture m).
    + intros Hc. destruct (decide (i < q)) as [|Hge]; [done|].
      rewrite (Hcf q i x m) in Hc; [done|lia|done..].
  - apply list_find_None in E. rewrite list.Forall_forall in E.
    split; [|intros _; by eapply lookup_lt_Some].
    intros _. specialize (E m (list_elem_of_lookup_2 _ _ _ Hi)).
    by destruct (isCapture m).
Qed.

Lemma capturesFirst_app (cs qs : list Move) :
  Forall (λ m, isCapture m = true) cs →
  Forall (λ m, isCapture m = false) qs →
  capturesFirst (cs ++ qs).
Proof.
  intros Hcs Hqs i j mi mj Hij Hi Hj Hmi.
  rewrite list.Forall_forall in Hcs. rewrite list.Forall_forall in Hqs.
  destruct (decide (i < length cs)) as [Hlt|Hge].
  - rewrite lookup_app_l in Hi by done.
    rewrite (Hcs mi) in Hmi; [done|]. by eapply list_elem_of_lookup_2.
  - rewrite lookup_app_r in Hj by lia.
    apply Hqs. by eapply list_elem_of_lookup_2.
Qed.

Lemma aligned_new st c d pv h l :
  capturesFirst l → aligned st (MoveOrder_new c d pv h l).
Proof. intros Hcf. split; [|done]. intros i m s _ Hs. done. Qed.

Lemma aligned_enterCaptures st mo :
  scores mo = [] → capturesFirst (legalMoves mo) →
  aligned st (enterCaptures st mo).
Proof.
  intros Hnil Hcf.
  destruct (findQuietStart_fields mo) as (Hst&Hl&Hs&_).
  split.
  - intros i m s.
    rewrite (scoreOf_sameNode st mo) by apply sameNode_enterCaptures.
    unfold enterCaptures, scoreCaptures; simpl. rewrite Hs, Hl, Hnil. simpl.
    intros Hm. rewrite list_lookup_fmap.
    destruct (seq 0 _ !! i) as [k|] eqn:Hk; [|done]. simpl.
    apply lookup_seq in Hk as [-> Hlt]. simpl. intros [= <-].
    rewrite (list_lookup_total_correct _ _ _ Hm). unfold scoreOf.
    rewrite (proj1 (findQuietStart_split mo i m Hcf Hm) Hlt).
    unfold captureScore; simpl. by destruct (findQuietStart_fields mo) as (_&_&_&_&_&->&_&->).
  - rewrite (proj1 (enterCaptures_fields st mo)).
    destruct (enterCaptures_fields st mo) as (_&El&_&_&Eq&_).
    rewrite El, Eq. intros i m. by apply findQuietStart_split.
Qed.

Lemma aligned_generateMoves st mo :
  wf mo → aligned st mo → aligned st (generateMoves st mo).
Proof.
  intros [Hi Hs] [Ha Hb].
  unfold generateMoves. destruct (mgStage mo) eqn:E.
  - case_decide.
    + split; simpl; [|by apply capturesFirst_removeHashed].
      intros i m s _. by rewrite Hs.
    + by apply aligned_enterCaptures.
  - apply aligned_enterCaptures; tauto.
  - split; [|done]. unfold scoreQuiets; simpl.
    intros i m s Hm. destruct Hs as [Hlen Hq].
    destruct (decide (i < length (scores mo))) as [Hlt|Hge].
    + rewrite lookup_app_l by done. intros Hsc.
      by rewrite (Ha i m s Hm Hsc).
    + rewrite lookup_app_r by lia. rewrite list_lookup_fmap.
      destruct (seq _ _ !! _) as [k|] eqn:Hk; [|done]. simpl.
      apply lookup_seq in Hk as [-> Hlt]. intros [= <-].
      replace (quietStart mo + (i - length (scores mo))) with i by lia.
      rewrite (list_lookup_total_correct _ _ _ Hm). unfold scoreOf.
      assert (isCapture m = false) as ->; [|done].
      destruct (isCapture m) eqn:Ec; [|done].
      apply (Hb i m Hm) in Ec. lia.
  - split; [done|]. by rewrite E.
Qed.

Lemma aligned_refill n st mo :
  wf mo → aligned st mo → aligned st (refill n st mo).
Proof.
  revert mo. induction n as [|n IH]; intros mo Hwf Ha; [done|].
  unfold refill; fold refill. repeat case_decide; try done.
  apply IH; [by apply wf_generateMoves|by apply aligned_generateMoves].
Qed.

End Alignment.

(** ** The order in which the moves are returned *)

Section Order.
Context `{!MoveEncoding}.

Lemma wf_swapBest k mo :
  wf mo → index mo < length (scores mo) → wf (swapBest k mo).
Proof.
  intros [Hi Hs] Hlt. split; simpl; rewrite ?swap_length; [done|].
  destruct (mgStage mo); rewrite ?swap_length; try done.
  - rewrite Hs in Hlt. simpl in Hlt. lia.
  - destruct Hs as [Hs _]. rewrite Hs in Hlt. simpl in Hlt. lia.
Qed.

Lemma aligned_swapBest st k mo :
  wf mo → aligned st mo →
  index mo ≤ k < length (scores mo) →
  aligned st (swapBest k mo).
Proof.
  intros [Hi Hs] [Ha Hb] Hk.
  assert (mgStage mo = STAGE_CAPTURES ∨ mgStage mo = STAGE_QUIETS) as Hst.
  { destruct (mgStage mo); auto.
    - rewrite Hs in Hk. simpl in Hk. lia.
    - destruct Hs as [Hs _]. rewrite Hs in Hk. simpl in Hk. lia. }
  assert (length (scores mo) ≤ length (legalMoves mo)) as Hlen.
  { destruct Hst as [E|E]; rewrite E in Hs; lia. }
  assert (∀ i m, swap (legalMoves mo) k (index mo) !! i = Some m →
            ∃ j, legalMoves mo !! j = Some m
                 ∧ swap (scores mo) k (index mo) !! i = scores mo !! j
                 ∧ (i < length (scores mo) ↔ j < length (scores mo))) as Hsw.
  { intros i m. rewrite !swap_lookup by lia.
    repeat case_decide; subst; intros Hm; eexists; (split; [exact Hm|]);
      (split; [done|lia]). }
  split.
  - intros i m s Hm Hsc. simpl in Hm, Hsc.
    destruct (Hsw i m Hm) as (j & Hj & Hsj & _). rewrite Hsj in Hsc.
    by apply (Ha j m s).
  - simpl. destruct Hst as [E|E]; rewrite E in Hs, Hb |- *; [|done].
    intros i m Hm. destruct (Hsw i m Hm) as (j & Hj & _ & Hij).
    rewrite <-(Hb j m Hj). destruct Hs as [<- _]. done.
Qed.

Lemma aligned_selectBest st mo :
  wf mo → aligned st mo → index mo < length (scores mo) →
  aligned st (selectBest st mo).2.
Proof.
  intros Hwf Ha Hlt.
  destruct (findBest_spec (scores mo) (index mo) Hlt) as (Hb1 & _).
  pose proof (wf_swapBest (findBest (scores mo) (index mo)).1 mo Hwf Hlt) as Hwf2.
  pose proof (aligned_swapBest st _ mo Hwf Ha Hb1) as Ha2.
  unfold selectBest. simpl.
  set (mo2 := swapBest _ mo) in *.
  assert (∀ mo3, aligned st mo3 → aligned st (set_index (S (index mo3)) mo3)) as Hset.
  { intros mo3 [A B]. split; [exact A|exact B]. }
  apply Hset. case_decide; [by apply aligned_generateMoves|done].
Qed.

(** One call never returns a move while a move of a greater score is
    still to come, unless the call is the one that scores the quiet moves
    (then the capture under the cursor goes first). *)
Lemma nextMove_order st mo m1 m2 :
  wf mo → aligned st mo → mgStage mo ≠ STAGE_HASH_MOVE →
  m1 ∈ pending mo →
  (scoreOf st mo m2 < scoreOf st mo m1)%Z →
  isCapture m1 = true ∨ isCapture m2 = false →
  (nextMove st mo).1 ≠ m2.
Proof.
  intros Hwf Ha Hne Hin Hsc Hkind.
  pose proof (wf_refill 3 st mo Hwf) as Hwf1.
  pose proof (aligned_refill 3 st mo Hwf Ha) as Ha1.
  pose proof (pending_refill 3 st mo Hwf) as Hp1.
  pose proof (refill_stage st mo Hwf) as Hst1.
  pose proof (sameNode_refill 3 st mo) as Hsame.
  unfold nextMove. rewrite decide_False by done.
  set (mo1 := refill 3 st mo) in *.
  assert (pending mo1 = drop (index mo1) (legalMoves mo1)) as Hpd.
  { unfold pending. destruct Hst1 as [-> | ->]; done. }
  rewrite <-Hp1, Hpd in Hin.
  apply list_elem_of_lookup in Hin as [k Hk]. rewrite lookup_drop in Hk.
  assert (length (scores mo1) ≤ length (legalMoves mo1)) as Hlen.
  { destruct Hwf1 as [_ Hs]. destruct Hst1 as [E|E]; rewrite E in Hs; lia. }
  case_decide as Hex.
  - (* nothing is left: impossible, [m1] is still to come *)
    exfalso. apply lookup_lt_Some in Hk.
    destruct (refill_enough st mo) as [Hlt|Hq]; [fold mo1 in Hlt; lia|fold mo1 in Hq].
    destruct Hwf1 as [_ Hs]. rewrite Hq in Hs. lia.
  - assert (index mo1 < length (scores mo1)) as Hlt by lia.
    destruct (selectBest_spec st mo1 Hwf1 Hlt) as (_&_&_&_&_&Hm&_).
    destruct (findBest_spec (scores mo1) (index mo1) Hlt) as (Hb1 & Hb2 & Hb3 & _).
    set (best := findBest (scores mo1) (index mo1)) in *.
    set (r := selectBest st mo1) in *.
    destruct Ha1 as [Hal Hcap].
    assert (scores mo1 !!! best.1 = scoreOf st mo r.1) as Hbest.
    { rewrite <-(scoreOf_sameNode st mo mo1) by done.
      destruct (lookup_lt_is_Some_2 (scores mo1) best.1 ltac:(lia)) as [s Hs].
      rewrite (list_lookup_total_correct _ _ _ Hs). by apply (Hal best.1). }
    assert (index mo1 + k < length (scores mo1) → r.1 ≠ m2) as Hscored.
    { intros Hks Heq.
      destruct (lookup_lt_is_Some_2 (scores mo1) (index mo1 + k) Hks) as [s Hs].
      pose proof (Hal _ _ _ Hk Hs) as Hs1.
      rewrite (scoreOf_sameNode st mo mo1) in Hs1 by done.
      specialize (Hb3 (index mo1 + k) ltac:(lia)).
      rewrite (list_lookup_total_correct _ _ _ Hs) in Hb3.
      rewrite Hb2, Hbest, Heq in Hb3. lia. }
    destruct Hst1 as [E|E].
    + rewrite E in Hcap. destruct Hwf1 as [_ Hs]. rewrite E in Hs.
      destruct Hkind as [Hc1|Hq2].
      * apply Hscored. apply (Hcap _ _ Hk) in Hc1. lia.
      * intros Heq. rewrite Heq in Hm.
        assert (isCapture m2 = true) as Hc2 by (apply (Hcap _ _ Hm); lia).
        congruence.
    + apply Hscored. destruct Hwf1 as [_ Hs]. rewrite E in Hs.
      apply lookup_lt_Some in Hk. lia.
Qed.

Lemma aligned_nextMove st mo :
  wf mo → aligned st mo → aligned st (nextMove st mo).2.
Proof.
  intros Hwf Ha. unfold nextMove. case_decide; [done|].
  case_decide; simpl; [by apply aligned_refill|].
  apply aligned_selectBest; [by apply wf_refill|by apply aligned_refill|lia].
Qed.

(** The caller's loop returns exactly the moves that were to come. *)
Lemma pullAll_Some st fuel mo ms mo' :
  wf mo → mgStage mo ≠ STAGE_HASH_MOVE →
  NULL_MOVE ∉ pending mo →
  pullAll fuel st mo = Some (ms, mo') →
  ms ≡ₚ pending mo.
Proof.
  revert mo ms mo'. induction fuel as [|fuel IH]; intros mo ms mo' Hwf Hne Hnull; [done|].
  simpl. destruct (nextMove_step st mo Hwf Hne) as (W & S1 & Hcase).
  destruct Hcase as [(P0 & R1 & _)|(Hperm & Hidx & _)].
  - rewrite decide_True by done. intros [= <- _]. by rewrite P0.
  - assert ((nextMove st mo).1 ∈ pending mo) as Hin by (rewrite Hperm; by left).
    rewrite decide_False by (intros E; rewrite E in Hin; done).
    destruct (pullAll fuel st _) as [[ms' mo'']|] eqn:E; [|done].
    intros [= <- _]. rewrite Hperm. f_equiv.
    apply (IH _ _ mo'' W); [destruct S1 as [-> | ->]; done| |done].
    intros Hn. apply Hnull. rewrite Hperm. by right.
Qed.

(** A move is returned before every move of a smaller score, except that
    a quiet move may come after a capture of a smaller score. *)
Lemma pullAll_before st fuel mo m1 m2 ms mo' :
  wf mo → aligned st mo → mgStage mo ≠ STAGE_HASH_MOVE →
  NULL_MOVE ∉ pending mo →
  m1 ∈ pending mo → m2 ∈ pending mo →
  (scoreOf st mo m2 < scoreOf st mo m1)%Z →
  isCapture m1 = true ∨ isCapture m2 = false →
  pullAll fuel st mo = Some (ms, mo') →
  pulledBefore m1 m2 ms.
Proof.
  revert mo ms mo'. induction fuel as [|fuel IH];
    intros mo ms mo' Hwf Ha Hne Hnull Hin1 Hin2 Hsc Hkind; [done|].
  simpl.
  pose proof (nextMove_order st mo m1 m2 Hwf Ha Hne Hin1 Hsc Hkind) as Hnot2.
  pose proof (aligned_nextMove st mo Hwf Ha) as Ha'.
  pose proof (sameNode_nextMove st mo) as Hsame.
  destruct (nextMove_step st mo Hwf Hne) as (W & S1 & Hcase).
  assert (mgStage (nextMove st mo).2 ≠ STAGE_HASH_MOVE) as Hne'
    by (destruct S1 as [-> | ->]; done).
  destruct Hcase as [(P0 & _)|(Hperm & Hidx & _)].
  { rewrite P0 in Hin1. by apply elem_of_nil in Hin1. }
  set (r := nextMove st mo) in *.
  assert (r.1 ∈ pending mo) as Hin by (rewrite Hperm; by left).
  rewrite decide_False by (intros E; rewrite E in Hin; done).
  destruct (pullAll fuel st r.2) as [[ms' mo'']|] eqn:E; [|done].
  intros [= <- _].
  assert (NULL_MOVE ∉ pending r.2) as Hnull'.
  { intros Hn. apply Hnull. rewrite Hperm. by right. }
  assert (m2 ∈ pending r.2) as Hin2'.
  { rewrite Hperm in Hin2. apply elem_of_cons in Hin2 as [Heq|]; [|done].
    by destruct Hnot2. }
  destruct (decide (r.1 = m1)) as [Heq|Hneq].
  - exists [], ms'. rewrite Heq. split_and!; [done|apply not_elem_of_nil|].
    by rewrite (pullAll_Some st fuel r.2 ms' mo'' W Hne' Hnull' E).
  - assert (m1 ∈ pending r.2) as Hin1'.
    { rewrite Hperm in Hin1. apply elem_of_cons in Hin1 as [Heq|]; [|done].
      by destruct Hneq. }
    destruct (IH r.2 ms' mo'' W Ha' Hne' Hnull' Hin1' Hin2') as (l1 & l2 & -> & Hn1 & Hn2).
    + by rewrite !(scoreOf_sameNode st mo r.2).
    + done.
    + done.
    + exists (r.1 :: l1), l2. split_and!; [done| |done].
      apply not_elem_of_cons. split; [by intros ->|done].
Qed.

End Order.

(** ** The history update *)

Section History.
Context `{!MoveEncoding}.

Local Open Scope Z_scope.

Local Ltac quot_lia := Z.to_euclidean_division_equations; lia.

Local Ltac depth_cases d :=
  let Hc := fresh "Hc" in
  assert (d = 1 ∨ d = 2 ∨ d = 3 ∨ d = 4 ∨ d = 5 ∨ d = 6
          ∨ d = 7 ∨ d = 8 ∨ d = 9 ∨ d = 10 ∨ d = 11 ∨ d = 12) as Hc by lia;
  destruct_or!; subst d.

Lemma historyBonus_mono d x y :
  1 ≤ d ≤ 12 → x ≤ y → historyBonus d x ≤ historyBonus d y.
Proof. intros Hd Hxy. unfold historyBonus. depth_cases d; quot_lia. Qed.

Lemma historyBonus_range d x lo hi :
  1 ≤ d ≤ 12 → lo ≤ 0 → 64 * d + d * d ≤ hi →
  lo ≤ x ≤ hi → lo ≤ historyBonus d x ≤ hi.
Proof. intros Hd Hlo Hhi Hx. unfold historyBonus. depth_cases d; quot_lia. Qed.

Lemma historyBonus_fixed d x :
  1 ≤ d ≤ 12 → historyBonus d x = x → 64 * d ≤ x ≤ 64 * d + 63.
Proof. intros Hd. unfold historyBonus. depth_cases d; quot_lia. Qed.

Lemma iter_historyBonus_range d x lo hi n :
  1 ≤ d ≤ 12 → lo ≤ 0 → 64 * d + d * d ≤ hi →
  lo ≤ x ≤ hi → lo ≤ Nat.iter n (historyBonus d) x ≤ hi.
Proof.
  intros Hd Hlo Hhi Hx. induction n as [|n IH]; [done|].
  simpl. by apply historyBonus_range.
Qed.

(** A weight below its image climbs to a fixed point, a weight above its
    image descends to one; [k] bounds the distance to the bound. *)
Lemma historyBonus_climb d hi (k : nat) x :
  1 ≤ d ≤ 12 → 64 * d + d * d ≤ hi →
  x ≤ historyBonus d x → x ≤ hi → hi - x ≤ Z.of_nat k →
  ∃ N, historyBonus d (Nat.iter N (historyBonus d) x) = Nat.iter N (historyBonus d) x.
Proof.
  intros Hd Hhi. revert x. induction k as [|k IH]; intros x Hup Hx Hk.
  - exists 0%nat. simpl.
    pose proof (historyBonus_range d x (Z.min x 0) hi Hd ltac:(lia) Hhi ltac:(lia)). lia.
  - destruct (decide (historyBonus d x = x)) as [Heq|Hne]; [by exists 0%nat|].
    pose proof (historyBonus_range d x (Z.min x 0) hi Hd ltac:(lia) Hhi ltac:(lia)).
    destruct (IH (historyBonus d x)) as [N HN].
    + by apply historyBonus_mono.
    + lia.
    + lia.
    + exists (S N). rewrite !Nat.iter_succ_r. exact HN.
Qed.

Lemma historyBonus_descend d lo (k : nat) x :
  1 ≤ d ≤ 12 → lo ≤ 0 →
  historyBonus d x ≤ x → lo ≤ x → x - lo ≤ Z.of_nat k →
  ∃ N, historyBonus d (Nat.iter N (historyBonus d) x) = Nat.iter N (historyBonus d) x.
Proof.
  intros Hd Hlo. revert x. induction k as [|k IH]; intros x Hdown Hx Hk.
  - exists 0%nat. simpl.
    pose proof (historyBonus_range d x lo (Z.max x (64 * d + d * d)) Hd Hlo
                  ltac:(lia) ltac:(lia)). lia.
  - destruct (decide (historyBonus d x = x)) as [Heq|Hne]; [by exists 0%nat|].
    pose proof (historyBonus_range d x lo (Z.max x (64 * d + d * d)) Hd Hlo
                  ltac:(lia) ltac:(lia)).
    destruct (IH (historyBonus d x)) as [N HN].
    + by apply historyBonus_mono.
    + lia.
    + lia.
    + exists (S N). rewrite !Nat.iter_succ_r. exact HN.
Qed.

Lemma iter_fixed (f : Z → Z) x N n :
  f (Nat.iter N f x) = Nat.iter N f x → (N ≤ n)%nat →
  Nat.iter n f x = Nat.iter N f x.
Proof.
  intros Hfix Hn. replace n with ((n - N) + N)%nat by lia.
  generalize (n - N)%nat as k. intros k. induction k as [|k IH]; [done|].
  simpl. rewrite IH. exact Hfix.
Qed.

(** *** What one call writes *)

Lemma bumped_insert {K} `{EqDecision K} (f : Z → Z) (k : K) (t : K → Z) :
  bumped f k t (<[k := f (t k)]> t).
Proof.
  intros k'. case_decide as Hk.
  - subst. apply fn_lookup_insert.
  - by apply fn_lookup_insert_ne.
Qed.

Lemma adjustHistories_spec f c m st :
  let pieceID := getPieceOnSquare (b st) c (getStartSq m) in
  let endSq := getEndSq m in
  let st' := adjustHistories f c m st in
  b st' = b st
  ∧ killers (searchParams st') = killers (searchParams st)
  ∧ ply (ssi st') = ply (ssi st)
  ∧ bumped f (c, pieceID, endSq)
      (historyTable (searchParams st)) (historyTable (searchParams st'))
  ∧ option_Forall2 (bumped f (pieceID, endSq))
      (counterMoveHistory (ssi st)) (counterMoveHistory (ssi st'))
  ∧ option_Forall2 (bumped f (pieceID, endSq))
      (followupMoveHistory (ssi st)) (followupMoveHistory (ssi st')).
Proof.
  simpl. split_and!; try done.
  - apply bumped_insert.
  - destruct (counterMoveHistory (ssi st)); constructor. apply bumped_insert.
  - destruct (followupMoveHistory (ssi st)); constructor. apply bumped_insert.
Qed.

(** The loop of [updateHistories] writes nothing when it meets only
    captures before it meets the best move or its bound. *)
Lemma penalizeTried_captures hd mo best (n a k : nat) st :
  (∀ i, (a ≤ i < n)%nat → isCapture (legalMoves mo !!! i) = true) →
  ((a + k ≤ n)%nat ∨ legalMoves mo !!! n = best) →
  (a ≤ n)%nat →
  penalizeTried hd mo best (seq a k) st = st.
Proof.
  revert a. induction k as [|k IH]; intros a Hcap Hend Han; [done|].
  simpl. case_decide as Hb; [done|].
  destruct (decide (a = n)) as [->|Hne].
  { destruct Hend as [?|Hend]; [lia|]. by destruct Hb. }
  rewrite Hcap by lia. apply IH; [intros i Hi; apply Hcap; lia| |lia].
  destruct Hend; [left; lia|by right].
Qed.

End History.

(** ** The state the caller's loop ends in *)

Section Final.
Context `{!MoveEncoding}.

(** After the loop the list holds, behind the moves returned earlier, the
    moves in the order in which the loop returned them. *)
Lemma pullAll_final st fuel mo ms mo' :
  wf mo → mgStage mo ≠ STAGE_HASH_MOVE →
  NULL_MOVE ∉ pending mo →
  pullAll fuel st mo = Some (ms, mo') →
  legalMoves mo' = take (index mo) (legalMoves mo) ++ ms
  ∧ index mo' = index mo + length ms
  ∧ sameNode mo mo'.
Proof.
  revert mo ms mo'. induction fuel as [|fuel IH]; intros mo ms mo' Hwf Hne Hnull; [done|].
  simpl. pose proof (sameNode_nextMove st mo) as Hsame.
  destruct (nextMove_step st mo Hwf Hne) as (W & S1 & Hcase).
  destruct Hcase as [(P0 & R1 & _ & _ & I0 & _ & _ & L0)|(Hperm & Hidx & Htk)].
  - rewrite decide_True by done. intros [= <- <-].
    rewrite L0, I0, app_nil_r. simpl. split_and!; [done|lia|done].
  - assert ((nextMove st mo).1 ∈ pending mo) as Hin by (rewrite Hperm; by left).
    rewrite decide_False by (intros E; rewrite E in Hin; done).
    destruct (pullAll fuel st _) as [[ms' mo'']|] eqn:E; [|done].
    intros [= <- <-].
    destruct (IH _ ms' mo'' W) as (L & I & N); [destruct S1 as [-> | ->]; done| |done|].
    { intros Hn. apply Hnull. rewrite Hperm. by right. }
    rewrite L, I, Hidx, Htk, <-app_assoc. simpl.
    split_and!; [done|lia|by eapply sameNode_trans].
Qed.

Lemma nextMove_exhausted st mo :
  mgStage mo = STAGE_QUIETS → length (scores mo) ≤ index mo →
  nextMove st mo = (NULL_MOVE, mo).
Proof.
  intros Hq Hex. unfold nextMove.
  rewrite decide_False by (rewrite Hq; done).
  rewrite refill_fixed by by right. by rewrite decide_True.
Qed.

(** Once the sentinel has been returned no call changes the state. *)
Lemma runCalls_exhausted cs mo :
  mgStage mo = STAGE_QUIETS → length (scores mo) ≤ index mo →
  runCalls cs mo = mo.
Proof.
  intros Hq Hex. induction cs as [|c cs IH]; [done|].
  simpl. destruct c as [st|st]; simpl.
  - by rewrite generateMoves_quiets.
  - by rewrite nextMove_exhausted.
Qed.

(** The list of a reachable state holds moves of the list the node was
    built with. *)
Lemma legalMoves_generateMoves_subseteq st mo :
  legalMoves (generateMoves st mo) ⊆ legalMoves mo.
Proof.
  unfold generateMoves. destruct (mgStage mo); try done.
  - case_decide; [simpl; apply removeHashed_subseteq|].
    by rewrite (proj1 (proj2 (enterCaptures_fields st mo))).
  - by rewrite (proj1 (proj2 (enterCaptures_fields st mo))).
Qed.

Lemma legalMoves_refill_subseteq n st mo :
  legalMoves (refill n st mo) ⊆ legalMoves mo.
Proof.
  revert mo. induction n as [|n IH]; intros mo; [done|].
  unfold refill; fold refill. repeat case_decide; try done.
  etrans; [apply IH|apply legalMoves_generateMoves_subseteq].
Qed.

Lemma legalMoves_nextMove_subseteq st mo :
  wf mo → legalMoves (nextMove st mo).2 ⊆ legalMoves mo.
Proof.
  intros Hwf. unfold nextMove. case_decide; [done|].
  case_decide; [simpl; apply legalMoves_refill_subseteq|].
  pose proof (wf_refill 3 st mo Hwf) as Hwf1.
  destruct (selectBest_spec st _ Hwf1 ltac:(lia)) as (_&_&_&L&_).
  rewrite L. etrans; [|apply (legalMoves_refill_subseteq 3 st)].
  pose proof (findBest_spec (scores (refill 3 st mo)) (index (refill 3 st mo))
                ltac:(lia)) as (Hb & _).
  pose proof (refill_stage st mo Hwf) as Hst.
  destruct Hwf1 as [_ Hs].
  intros x Hx. eapply elem_of_Permutation_proper; [|exact Hx].
  symmetry. apply swap_Permutation; destruct Hst as [E|E]; rewrite E in Hs; lia.
Qed.

Lemma legalMoves_runCalls_subseteq cs mo :
  wf mo → legalMoves (runCalls cs mo) ⊆ legalMoves mo.
Proof.
  revert mo. induction cs as [|c cs IH]; intros mo Hwf; [done|].
  simpl. destruct c as [st|st]; simpl.
  - etrans; [apply IH; by apply wf_generateMoves|apply legalMoves_generateMoves_subseteq].
  - etrans; [apply IH; by apply wf_nextMove|by apply legalMoves_nextMove_subseteq].
Qed.

Lemma pending_subseteq mo : pending mo ⊆ legalMoves mo.
Proof.
  unfold pending. destruct (mgStage mo);
    try (apply sublist_subseteq, sublist_drop).
  case_decide; [apply removeHashed_subseteq|done].
Qed.

(** *** [findQuietStart] *)

Lemma findQuietStart_spec mo :
  let l := legalMoves mo in
  let q := quietStart (findQuietStart mo) in
  q ≤ length l
  ∧ (∀ i m, l !! i = Some m → i < q → isCapture m = true)
  ∧ (∀ m, l !! q = Some m → isCapture m = false)
  ∧ (q = length l ↔ Forall (λ m, isCapture m = true) l).
Proof.
  simpl. unfold findQuietStart.
  destruct (list_find _ _) as [[q x]|] eqn:E; simpl.
  - apply list_find_Some in E as (Hq & Hx & Hbefore).
    pose proof (lookup_lt_Some _ _ _ Hq) as Hlt.
    split_and!; [lia| |congruence|].
    + intros i m Hi Hiq. specialize (Hbefore i m Hi Hiq). by destruct (isCapture m).
    + split; [lia|]. intros Hall. rewrite list.Forall_forall in Hall.
      specialize (Hall x (list_elem_of_lookup_2 _ _ _ Hq)). congruence.
  - apply list_find_None in E.
    assert (Forall (λ m, isCapture m = true) (legalMoves mo)) as Hall.
    { eapply list.Forall_impl; [exact E|]. intros m Hm. simpl in Hm. by destruct (isCapture m). }
    split_and!; [done| | |done].
    + intros i m Hi _. rewrite list.Forall_forall in Hall.
      apply Hall. by eapply list_elem_of_lookup_2.
    + intros m Hm. apply lookup_lt_Some in Hm. lia.
Qed.

Lemma removeHashed_elem_of h l m : m ∈ l → m ≠ h → m ∈ removeHashed h l.
Proof.
  intros Hin Hne. destruct (decide (h ∈ l)) as [Hh|Hh].
  - rewrite <-(removeHashed_Permutation h l Hh) in Hin.
    apply elem_of_cons in Hin as [?|?]; done.
  - by rewrite removeHashed_absent.
Qed.

(** The first move of a sequence in which it comes before all others. *)
Lemma pulledBefore_head m1 ms :
  m1 ∈ ms → (∀ x, x ∈ ms → x ≠ m1 → pulledBefore m1 x ms) → head ms = Some m1.
Proof.
  destruct ms as [|x t]; intros Hin Hall; [by apply elem_of_nil in Hin|].
  simpl. destruct (decide (x = m1)) as [->|Hne]; [done|].
  destruct (Hall x ltac:(by left) Hne) as (l1 & l2 & Heq & Hn1 & _).
  destruct l1 as [|y l1]; simpl in Heq; injection Heq as -> _; [done|].
  destruct Hn1. by left.
Qed.

End Final.

(** ** The stage machine *)

Section StageMachine.
Context `{!MoveEncoding}.

Lemma stageRank_rtc s s' :
  stageRank s ≤ stageRank s' → rtc stageArrow s s'.
Proof.
  destruct s, s'; simpl; intros Hle; try lia;
    eauto using rtc_refl, rtc_l, rtc_once, stageArrow.
Qed.

(** C9: over every sequence of [generateMoves] and [nextMove] calls on a
    new [MoveOrder] the stage never moves back; one [generateMoves] takes
    one arrow of NONE -> HASH_MOVE -> CAPTURES -> QUIETS (or the arrow
    NONE -> CAPTURES that skips HASH_MOVE), one [nextMove] takes a path of
    such arrows; QUIETS is terminal: no call leaves it, [generateMoves]
    does nothing there, and a [nextMove] whose cursor has no scored entry
    reports the sentinel and leaves the state as it is. *)
Theorem stage_machine_forward st c d pv h l cs1 cs2 :
  let mo1 := runCalls cs1 (MoveOrder_new c d pv h l) in
  let mo2 := runCalls cs2 mo1 in
  stageRank (mgStage mo1) ≤ stageRank (mgStage mo2)
  ∧ stageArrow (mgStage mo1) (mgStage (generateMoves st mo1))
  ∧ rtc stageArrow (mgStage mo1) (mgStage (nextMove st mo1).2)
  ∧ (mgStage mo1 = STAGE_QUIETS →
       mgStage mo2 = STAGE_QUIETS
       ∧ generateMoves st mo1 = mo1
       ∧ (length (scores mo1) ≤ index mo1 → nextMove st mo1 = (NULL_MOVE, mo1))).
Proof.
  intros mo1 mo2. split_and!.
  - apply runCalls_rank.
  - apply generateMoves_arrow.
  - apply stageRank_rtc, nextMove_rank.
  - intros Hq. split_and!.
    + pose proof (runCalls_rank cs2 mo1) as Hr. fold mo2 in Hr.
      rewrite Hq in Hr. destruct (mgStage mo2); simpl in Hr; try lia; done.
    + by apply generateMoves_quiets.
    + by apply nextMove_exhausted.
Qed.

(** C10, as the code has it: when [nextMove] returns the sentinel on a
    state reached from a new [MoveOrder] (built on a list without the
    sentinel), the call leaves [index] and [scores] as they were and the
    stage at [STAGE_QUIETS] with the cursor behind the last score; it
    changes nothing at all when it starts in [STAGE_QUIETS]; and after it
    no sequence of calls changes the state, every [nextMove] returning the
    sentinel again. *)
Theorem exhaustion_stable st c d pv h l cs :
  NULL_MOVE ∉ l →
  let mo := runCalls cs (MoveOrder_new c d pv h l) in
  (nextMove st mo).1 = NULL_MOVE →
  let mo' := (nextMove st mo).2 in
  mgStage mo' = STAGE_QUIETS
  ∧ length (scores mo') ≤ index mo'
  ∧ index mo' = index mo
  ∧ scores mo' = scores mo
  ∧ (mgStage mo = STAGE_QUIETS → mo' = mo)
  ∧ (∀ cs' st', runCalls cs' mo' = mo' ∧ nextMove st' mo' = (NULL_MOVE, mo')).
Proof.
  intros Hnull mo Hret mo'.
  pose proof (wf_reachable cs c d pv h l) as Hwf. fold mo in Hwf.
  assert (mgStage mo ≠ STAGE_HASH_MOVE) as Hne.
  { intros E. unfold nextMove in Hret. rewrite decide_True in Hret by done.
    destruct Hwf as [_ Hs]. rewrite E in Hs. simpl in Hret. tauto. }
  destruct (nextMove_step st mo Hwf Hne) as (W & _ & Hcase).
  fold mo' in W, Hcase.
  destruct Hcase as [(_ & _ & Q & E & I & Sc & _)|(Hperm & _)].
  - split_and!; try done.
    + intros Hq. unfold mo'. rewrite nextMove_exhausted; [done..|].
      rewrite <-Sc, <-I. exact E.
    + intros cs' st'. rewrite runCalls_exhausted by done.
      by rewrite nextMove_exhausted.
  - exfalso. apply Hnull.
    apply (legalMoves_runCalls_subseteq cs (MoveOrder_new c d pv h l) (wf_new _ _ _ _ _)).
    apply pending_subseteq. fold mo. rewrite Hperm, Hret. by left.
Qed.

(** C7, as the code has it: on entering [STAGE_CAPTURES], [quietStart] is
    the index of the first move that is not a capture: every index below
    it holds a capture and the move at it, if any, is not one; it equals
    [legalMoves.size()] exactly when every move is a capture (there are no
    quiet moves); and when the list has its captures first, every index
    at or above it holds a quiet move. *)
Theorem quietStart_on_entering_captures st mo :
  mgStage mo = STAGE_HASH_MOVE
  ∨ (mgStage mo = STAGE_NONE ∧ hashed mo = NULL_MOVE) →
  let mo' := generateMoves st mo in
  let l := legalMoves mo' in
  let q := quietStart mo' in
  mgStage mo' = STAGE_CAPTURES
  ∧ l = legalMoves mo
  ∧ q ≤ length l
  ∧ (∀ i m, l !! i = Some m → i < q → isCapture m = true)
  ∧ (∀ m, l !! q = Some m → isCapture m = false)
  ∧ (q = length l ↔ Forall (λ m, isCapture m = true) l)
  ∧ (capturesFirst l → ∀ i m, l !! i = Some m → q ≤ i → isCapture m = false).
Proof.
  intros Hst mo' l q.
  assert (mo' = enterCaptures st mo) as Hmo.
  { unfold mo', generateMoves. destruct Hst as [-> | [-> Hh]]; [done|].
    by rewrite decide_False by (intros Hn; by apply Hn). }
  destruct (enterCaptures_fields st mo) as (E1 & E2 & _ & _ & E5 & _).
  destruct (findQuietStart_spec mo) as (F1 & F2 & F3 & F4).
  unfold l, q. rewrite Hmo, E1, E2, E5.
  split_and!; try done.
  intros Hcf i m Hi Hq.
  destruct (isCapture m) eqn:Ec; [|done].
  apply (findQuietStart_split mo i m Hcf Hi) in Ec. lia.
Qed.

End StageMachine.

(** ** The history weights *)

Section HistoryWeights.
Context `{!MoveEncoding}.

Local Open Scope Z_scope.

(** C8: for a depth of at least 1, with [d = min(depth, 12)], the weights
    [w, f w, f (f w), ...] of the update [f w = w - d*w/64 + d*d] (the
    division truncating) stay between [min w 0] and
    [max w (64*d + d*d)], and from some call on they rest at a fixed
    point of the update, which lies between [64*d] and [64*d + 63]. *)
Theorem history_weight_bounded depth w :
  1 ≤ depth →
  let d := Z.min depth 12 in
  (∀ n, Z.min w 0 ≤ Nat.iter n (historyBonus d) w ≤ Z.max w (64 * d + d * d))
  ∧ ∃ N,
      (∀ n, (N ≤ n)%nat → Nat.iter n (historyBonus d) w = Nat.iter N (historyBonus d) w)
      ∧ historyBonus d (Nat.iter N (historyBonus d) w) = Nat.iter N (historyBonus d) w
      ∧ 64 * d ≤ Nat.iter N (historyBonus d) w ≤ 64 * d + 63.
Proof.
  intros Hdepth d. assert (1 ≤ d ≤ 12) as Hd by (unfold d; lia).
  split.
  - intros n. apply iter_historyBonus_range; lia.
  - assert (∃ N, historyBonus d (Nat.iter N (historyBonus d) w)
                 = Nat.iter N (historyBonus d) w) as [N HN].
    { destruct (decide (w ≤ historyBonus d w)) as [Hup|Hdown].
      - apply (historyBonus_climb d (Z.max w (64 * d + d * d))
                 (Z.to_nat (Z.max w (64 * d + d * d) - w))); lia.
      - apply (historyBonus_descend d (Z.min w 0) (Z.to_nat (w - Z.min w 0))); lia. }
    exists N. split; [|split; [done|by apply historyBonus_fixed]].
    intros n Hn. by apply iter_fixed.
Qed.

(** C3, as the code has it: with the cursor at its initial position
    ([index = 0]) [updateHistories] skips the loop over the moves tried
    earlier but still rewards the best move: in the main table, and in
    the counter-move and follow-up tables that are present, the entry of
    the best move's piece and destination becomes [w - d*w/64 + d*d] and
    every other entry stays as it is. *)
Theorem updateHistories_at_start mo bestMove st :
  index mo = 0%nat →
  let d := Z.min (depth mo) 12 in
  let pieceID := getPieceOnSquare (b st) (color mo) (getStartSq bestMove) in
  let endSq := getEndSq bestMove in
  let st' := updateHistories mo bestMove st in
  bumped (historyBonus d) (color mo, pieceID, endSq)
    (historyTable (searchParams st)) (historyTable (searchParams st'))
  ∧ option_Forall2 (bumped (historyBonus d) (pieceID, endSq))
      (counterMoveHistory (ssi st)) (counterMoveHistory (ssi st'))
  ∧ option_Forall2 (bumped (historyBonus d) (pieceID, endSq))
      (followupMoveHistory (ssi st)) (followupMoveHistory (ssi st')).
Proof.
  intros Hidx d pieceID endSq st'.
  assert (st' = adjustHistories (historyBonus d) (color mo) bestMove st) as ->.
  { unfold st', updateHistories. by rewrite decide_True by lia. }
  destruct (adjustHistories_spec (historyBonus d) (color mo) bestMove st)
    as (_ & _ & _ & H1 & H2 & H3).
  done.
Qed.

End HistoryWeights.

(** ** Pulling every move of a node *)

Section PullTheorems.
Context `{!MoveEncoding}.

(** C1, as the code has it: on a new [MoveOrder] over a list [l] without
    the sentinel and a predicted move [h] that is the sentinel or a move
    of [l], calling [nextMove] until it returns the sentinel takes at most
    [length l + 1] calls and returns every move of [l] once, except [h]:
    the generator removes the predicted move from the list inside the
    first call and this loop never returns it.  With [h] put in front (if
    it is a move) the returned sequence is a permutation of [l]. *)
Theorem pull_until_exhaustion st c d pv h l :
  NULL_MOVE ∉ l → h = NULL_MOVE ∨ h ∈ l →
  let mo := MoveOrder_new c d pv h l in
  ∃ ms mo',
    (∀ k, pullAll (S (length l) + k) st mo = Some (ms, mo'))
    ∧ (if decide (h = NULL_MOVE) then ms ≡ₚ l else h :: ms ≡ₚ l)
    ∧ nextMove st mo' = (NULL_MOVE, mo').
Proof.
  intros Hnull Hh mo.
  assert (pending mo ⊆ l) as Hsub by apply (pending_subseteq mo).
  assert (length (pending mo) ≤ length l) as Hlen.
  { unfold mo. rewrite pending_new. case_decide; [|done].
    apply sublist_length, removeHashed_sublist. }
  destruct (pullAll_pending st (S (length l)) mo) as (ms & mo' & Hp & Hms & W & Q & E).
  { apply wf_new. } { done. } { intros Hn. by apply Hnull, Hsub. } { lia. }
  exists ms, mo'. split_and!.
  - intros k. by apply pullAll_more.
  - unfold mo in Hms. rewrite pending_new in Hms.
    destruct (decide (h = NULL_MOVE)) as [Heq|Hneq].
    + by rewrite decide_False in Hms by (intros Hn; by apply Hn).
    + rewrite decide_True in Hms by done. rewrite Hms.
      destruct Hh as [?|Hin]; [done|]. by apply removeHashed_Permutation.
  - by apply nextMove_exhausted.
Qed.

(** C2, as the code has it: for a predicted move [h] that is a move of
    the list, [generateMoves] in stage NONE removes the first entry equal
    to [h] from the list and enters HASH_MOVE; [nextMove] returns [h] when
    it is called in that stage (and leaves the state as it is); once the
    caller has left the stage with a second [generateMoves], pulling
    returns the rest of the list, so [h] with those moves is a
    permutation of the list.  A [nextMove] on the new [MoveOrder] itself
    runs through both generation steps in its loop: what it returns is
    the sentinel or a move of the list without [h]. *)
Theorem hash_move_in_its_stage st c d pv h l :
  NULL_MOVE ∉ l → h ≠ NULL_MOVE → h ∈ l →
  let mo0 := MoveOrder_new c d pv h l in
  let mo1 := generateMoves st mo0 in
  mgStage mo1 = STAGE_HASH_MOVE
  ∧ legalMoves mo1 = removeHashed h l
  ∧ h :: legalMoves mo1 ≡ₚ l
  ∧ nextMove st mo1 = (h, mo1)
  ∧ (∃ ms mo', pullAll (length l) st (generateMoves st mo1) = Some (ms, mo')
       ∧ h :: ms ≡ₚ l)
  ∧ (nextMove st mo0).1 ∈ NULL_MOVE :: legalMoves mo1.
Proof.
  intros Hnull Hh Hin mo0 mo1.
  assert (mo1 = set_legalMoves (removeHashed h l) (set_mgStage STAGE_HASH_MOVE mo0))
    as Hmo1.
  { unfold mo1, generateMoves. simpl. by rewrite decide_True. }
  assert (wf mo1) as Hwf1 by apply wf_generateMoves, wf_new.
  assert (pending mo1 = removeHashed h l) as Hp1 by (by rewrite Hmo1).
  split_and!.
  - by rewrite Hmo1.
  - by rewrite Hmo1.
  - rewrite Hmo1. simpl. by apply removeHashed_Permutation.
  - unfold nextMove. rewrite decide_True by (by rewrite Hmo1). by rewrite Hmo1.
  - pose proof (removeHashed_Permutation h l Hin) as Hperm.
    destruct (pullAll_pending st (length l) (generateMoves st mo1))
      as (ms & mo' & Hp & Hms & _).
    + by apply wf_generateMoves.
    + pose proof (generateMoves_progress st mo1) as Hr.
      rewrite Hmo1 in Hr at 1 2. simpl in Hr. specialize (Hr ltac:(done)).
      intros E. rewrite E in Hr. simpl in Hr. lia.
    + rewrite pending_generateMoves, Hp1 by done.
      intros Hn. by apply Hnull, (removeHashed_subseteq h l).
    + rewrite pending_generateMoves, Hp1 by done.
      apply Permutation_length in Hperm. simpl in Hperm. lia.
    + exists ms, mo'. split; [done|].
      by rewrite Hms, pending_generateMoves, Hp1.
  - destruct (nextMove_step st mo0 (wf_new _ _ _ _ _) ltac:(done)) as (_ & _ & Hcase).
    replace (legalMoves mo1) with (pending mo0)
      by (rewrite Hmo1; unfold mo0; rewrite pending_new; by rewrite decide_True).
    destruct Hcase as [(_ & -> & _)|(Hperm & _)]; [by left|].
    right. rewrite Hperm. by left.
Qed.

(** C6, as the code has it: at a principal-variation node whose list has
    its captures before its quiet moves, for two captures of the list,
    neither of them the predicted move, with SEE values [s1 > 0 > s2],
    the SEE values and the tie-break values of both being small against
    the gaps between the tiers (below [2^28] in absolute value), pulling
    until the sentinel returns the first one before the second one.  The
    sums that the code forms for the two scores are values of [int]. *)
Theorem winning_capture_before_losing st c d h l m1 m2 :
  NULL_MOVE ∉ l → capturesFirst l →
  m1 ∈ l → m2 ∈ l → isCapture m1 = true → isCapture m2 = true →
  h ≠ m1 → h ≠ m2 →
  (getSEEForMove (b st) c m1 > 0)%Z →
  (getSEEForMove (b st) c m2 < 0)%Z →
  smallValue (getSEEForMove (b st) c m1) →
  smallValue (getSEEForMove (b st) c m2) →
  smallValue (getMVVLVAScore (b st) c m1) →
  smallValue (getMVVLVAScore (b st) c m2) →
  ∃ ms mo',
    pullAll (S (length l)) st (MoveOrder_new c d true h l) = Some (ms, mo')
    ∧ pulledBefore m1 m2 ms
    ∧ fitsInt (SCORE_WINNING_CAPTURE + getSEEForMove (b st) c m1)
    ∧ fitsInt (scoreOf st (MoveOrder_new c d true h l) m1)
    ∧ fitsInt (SCORE_LOSING_CAPTURE + getSEEForMove (b st) c m2)
    ∧ fitsInt (scoreOf st (MoveOrder_new c d true h l) m2).
Proof.
  intros Hnull Hcf Hin1 Hin2 Hc1 Hc2 Hh1 Hh2 Hs1 Hs2 Hb1 Hb2 Hm1 Hm2.
  set (mo := MoveOrder_new c d true h l).
  assert (pending mo ⊆ l) as Hsub by apply (pending_subseteq mo).
  assert (NULL_MOVE ∉ pending mo) as Hnull' by (intros Hn; by apply Hnull, Hsub).
  assert (∀ m, m ∈ l → h ≠ m → m ∈ pending mo) as Hpend.
  { intros m Hm Hne. unfold mo. rewrite pending_new. case_decide; [|done].
    by apply removeHashed_elem_of. }
  destruct (pullAll_pending st (S (length l)) mo (wf_new _ _ _ _ _) ltac:(done) Hnull')
    as (ms & mo' & Hp & _).
  { assert (length (pending mo) ≤ length l); [|lia].
    apply sublist_length. unfold mo. rewrite pending_new.
    case_decide; [apply removeHashed_sublist|done]. }
  assert (scoreOf st mo m1 = SCORE_WINNING_CAPTURE + getSEEForMove (b st) c m1
                             + getMVVLVAScore (b st) c m1)%Z as S1.
  { unfold scoreOf, captureScore. rewrite Hc1. simpl. by rewrite decide_True. }
  assert (scoreOf st mo m2 = SCORE_LOSING_CAPTURE + getSEEForMove (b st) c m2
                             + getMVVLVAScore (b st) c m2)%Z as S2.
  { unfold scoreOf, captureScore. rewrite Hc2. simpl.
    rewrite decide_False by lia. by rewrite decide_False by lia. }
  unfold smallValue in *. rewrite S1, S2.
  unfold fitsInt, SCORE_WINNING_CAPTURE, SCORE_LOSING_CAPTURE in *.
  exists ms, mo'. split_and!; try done; try lia.
  apply (pullAll_before st (S (length l)) mo m1 m2 ms mo'); auto.
  - apply wf_new.
  - by apply aligned_new.
  - rewrite S1, S2. lia.
Qed.

End PullTheorems.

(** ** The example of the specification *)

Section Scenario.
Context `{!MoveEncoding}.

(** What pulling returns in the example, and the state it leaves. *)
Lemma scenario_pulls st c d l mH mC1 mC2 mK mQ :
  scenario st c l mH mC1 mC2 mK mQ →
  ∃ ms mo',
    pullAll 6 st (MoveOrder_new c d true mH l) = Some (ms, mo')
    ∧ ms ≡ₚ [mC1; mC2; mK; mQ]
    ∧ pulledBefore mC1 mC2 ms ∧ pulledBefore mC1 mK ms
    ∧ pulledBefore mC1 mQ ms ∧ pulledBefore mK mQ ms
    ∧ legalMoves mo' = ms ∧ index mo' = 4
    ∧ color mo' = c ∧ depth mo' = d.
Proof.
  intros (Hl & Hnd & Hnull & Hcf & Hc1 & Hc2 & Hk & Hq & Hs1 & Hs2
          & Hm1 & Hm2 & Hkil & Hpro & Hhist).
  set (mo := MoveOrder_new c d true mH l).
  assert (NoDup [mH; mC1; mC2; mK; mQ]) as Hnd5 by by rewrite <-Hl.
  assert (mH ∈ l) as HinH by (rewrite Hl; by left).
  assert (mH ≠ NULL_MOVE) as HneH by (intros E; rewrite E in HinH; done).
  assert (pending mo ≡ₚ [mC1; mC2; mK; mQ]) as Hpend.
  { unfold mo. rewrite pending_new, decide_True by done.
    apply (inj (cons mH)). by rewrite removeHashed_Permutation. }
  assert (NULL_MOVE ∉ pending mo) as Hnull'.
  { intros Hn. by apply Hnull, (pending_subseteq mo). }
  destruct (pullAll_pending st 6 mo (wf_new _ _ _ _ _) ltac:(done) Hnull')
    as (ms & mo' & Hp & Hms & _).
  { rewrite Hpend. simpl. lia. }
  destruct (pullAll_final st 6 mo ms mo' (wf_new _ _ _ _ _) ltac:(done) Hnull' Hp)
    as (Hfin & Hidx & Hcol & Hdep & _).
  assert (scoreOf st mo mC1 = SCORE_WINNING_CAPTURE + 200
                              + getMVVLVAScore (b st) c mC1)%Z as S1.
  { unfold scoreOf, captureScore. rewrite Hc1. simpl. rewrite Hs1.
    by rewrite decide_True by lia. }
  assert (scoreOf st mo mC2 = SCORE_LOSING_CAPTURE + -50
                              + getMVVLVAScore (b st) c mC2)%Z as S2.
  { unfold scoreOf, captureScore. rewrite Hc2. simpl. rewrite Hs2.
    rewrite decide_False by lia. by rewrite decide_False by lia. }
  assert (scoreOf st mo mK = SCORE_EVEN_CAPTURE - 1)%Z as S3.
  { unfold scoreOf, quietScore. rewrite Hk. by rewrite decide_True. }
  assert (scoreOf st mo mQ = SCORE_QUIET_MOVE) as S4.
  { unfold scoreOf, quietScore. rewrite Hq.
    rewrite decide_False.
    - rewrite decide_False by done. simpl. simpl in Hhist. lia.
    - rewrite Hkil. intros E. rewrite E in Hnd5.
      apply NoDup_cons in Hnd5 as [_ Hnd5]. apply NoDup_cons in Hnd5 as [_ Hnd5].
      apply NoDup_cons in Hnd5 as [_ Hnd5]. apply NoDup_cons in Hnd5 as [Hn _].
      apply Hn. by left. }
  assert (∀ m, m ∈ [mC1; mC2; mK; mQ] → m ∈ pending mo) as Hin
    by (intros m Hm; by rewrite Hpend).
  assert (∀ m1 m2, m1 ∈ [mC1; mC2; mK; mQ] → m2 ∈ [mC1; mC2; mK; mQ] →
            (scoreOf st mo m2 < scoreOf st mo m1)%Z →
            isCapture m1 = true ∨ isCapture m2 = false →
            pulledBefore m1 m2 ms) as Hbefore.
  { intros m1 m2 H1 H2 Hsc Hkind.
    apply (pullAll_before st 6 mo m1 m2 ms mo'); auto.
    - apply wf_new.
    - by apply aligned_new. }
  unfold SCORE_WINNING_CAPTURE, SCORE_LOSING_CAPTURE, SCORE_EVEN_CAPTURE,
    SCORE_QUIET_MOVE in *.
  assert (mC1 ∈ [mC1; mC2; mK; mQ]) as I1 by (rewrite !elem_of_cons; tauto).
  assert (mC2 ∈ [mC1; mC2; mK; mQ]) as I2 by (rewrite !elem_of_cons; tauto).
  assert (mK ∈ [mC1; mC2; mK; mQ]) as I3 by (rewrite !elem_of_cons; tauto).
  assert (mQ ∈ [mC1; mC2; mK; mQ]) as I4 by (rewrite !elem_of_cons; tauto).
  exists ms, mo'. split_and!; try done.
  - by rewrite Hms.
  - apply Hbefore; [done|done| |by left]. rewrite S1, S2. lia.
  - apply Hbefore; [done|done| |by left]. rewrite S1, S3. lia.
  - apply Hbefore; [done|done| |by left]. rewrite S1, S4. lia.
  - apply Hbefore; [done|done| |by right]. rewrite S3, S4. lia.
  - rewrite Hidx, Hms, Hpend. done.
Qed.

(** C4, as the code has it: in the example, pulling until the sentinel
    returns each of [mC1], [mC2], [mK] and [mQ] once and never the
    predicted move [mH]; [mC1] comes first and [mK] comes before [mQ].
    (Where [mC2] comes among [mK] and [mQ] is left open here.) *)
Theorem scenario_pull_order st c d l mH mC1 mC2 mK mQ :
  scenario st c l mH mC1 mC2 mK mQ →
  ∃ ms mo',
    pullAll 6 st (MoveOrder_new c d true mH l) = Some (ms, mo')
    ∧ ms ≡ₚ [mC1; mC2; mK; mQ]
    ∧ (mH ∉ ms)
    ∧ head ms = Some mC1
    ∧ pulledBefore mK mQ ms.
Proof.
  intros Hsc.
  destruct (scenario_pulls st c d l mH mC1 mC2 mK mQ Hsc)
    as (ms & mo' & Hp & Hms & B12 & B1K & B1Q & BKQ & _).
  destruct Hsc as (Hl & Hnd & _).
  exists ms, mo'. split_and!; try done.
  - rewrite Hms. rewrite Hl in Hnd. by apply NoDup_cons in Hnd as [Hn _].
  - apply pulledBefore_head; [rewrite Hms; by left|].
    intros x Hx Hne. rewrite Hms in Hx.
    repeat (apply elem_of_cons in Hx as [->|Hx]; [done|]).
    by apply elem_of_nil in Hx.
Qed.

(** C5, as the code has it: in the example with depth 6, after the moves
    have been pulled, [updateHistories] with the killer [mK] as best move
    changes the weight [w] of [mK]'s piece and destination to
    [w - 6*w/64 + 36] in the main table (and in the counter-move and
    follow-up tables that are present) and changes no other entry: the
    loop over the moves tried earlier skips the captures and stops at
    [mK], which was pulled before [mQ], so the weight of [mQ] stays as it
    is, like those of [mC1] and [mC2]. *)
Theorem scenario_feedback st c l mH mC1 mC2 mK mQ :
  scenario st c l mH mC1 mC2 mK mQ →
  ∃ ms mo',
    pullAll 6 st (MoveOrder_new c 6 true mH l) = Some (ms, mo')
    ∧ let pieceID := getPieceOnSquare (b st) c (getStartSq mK) in
      let endSq := getEndSq mK in
      let w := historyTable (searchParams st) (c, pieceID, endSq) in
      let st' := updateHistories mo' mK st in
      historyTable (searchParams st') (c, pieceID, endSq)
        = (w - (6 * w) ÷ 64 + 36)%Z
      ∧ bumped (historyBonus 6) (c, pieceID, endSq)
          (historyTable (searchParams st)) (historyTable (searchParams st'))
      ∧ option_Forall2 (bumped (historyBonus 6) (pieceID, endSq))
          (counterMoveHistory (ssi st)) (counterMoveHistory (ssi st'))
      ∧ option_Forall2 (bumped (historyBonus 6) (pieceID, endSq))
          (followupMoveHistory (ssi st)) (followupMoveHistory (ssi st')).
Proof.
  intros Hsc.
  destruct (scenario_pulls st c 6 l mH mC1 mC2 mK mQ Hsc)
    as (ms & mo' & Hp & Hms & _ & _ & _ & BKQ & Hfin & Hidx & Hcol & Hdep).
  destruct Hsc as (Hl & Hnd & _ & _ & Hc1 & Hc2 & _).
  exists ms, mo'. split; [done|]. intros pieceID endSq w st'.
  assert (NoDup ms) as Hndms.
  { rewrite Hms. rewrite Hl in Hnd. by apply NoDup_cons in Hnd as [_ Hn]. }
  assert (st' = adjustHistories (historyBonus 6) c mK st) as ->.
  { unfold st', updateHistories. rewrite Hdep, Hcol, Hidx.
    rewrite decide_False by lia. change (Z.min 6 12) with 6%Z.
    destruct BKQ as (l1 & l2 & Hsplit & Hq1 & _).
    apply (penalizeTried_captures _ _ _ (length l1)); [| |lia].
    - intros i Hi. rewrite Hfin, Hsplit.
      rewrite lookup_total_app_l by lia.
      assert (l1 !!! i ∈ l1) as Hin by (apply list_elem_of_lookup_total_2; lia).
      assert (l1 !!! i ∈ [mC1; mC2; mK; mQ]) as Hin'.
      { rewrite <-Hms, Hsplit. apply elem_of_app. by left. }
      rewrite Hsplit in Hndms. apply NoDup_app in Hndms as (_ & Hdis & _).
      rewrite !elem_of_cons in Hin'.
      destruct Hin' as [Heq|[Heq|[Heq|[Heq|Hnil]]]].
      + by rewrite Heq.
      + by rewrite Heq.
      + rewrite Heq in Hin. destruct (Hdis mK Hin). by left.
      + rewrite Heq in Hin. by destruct Hq1.
      + by apply elem_of_nil in Hnil.
    - right. rewrite Hfin, Hsplit. by rewrite list_lookup_total_middle. }
  destruct (adjustHistories_spec (historyBonus 6) c mK st) as (_ & _ & _ & H1 & H2 & H3).
  split_and!; try done.
  rewrite (H1 (c, pieceID, endSq)). by rewrite decide_True.
Qed.

End Scenario.

(** ** The theorems on the example node, and where the specification
       departs from the code *)

Section ExampleNode.
Import Example.
Local Existing Instance encoding.

Local Ltac by_computation := apply (bool_decide_unpack _); vm_compute; exact I.

Lemma example_moves_without_sentinel : NULL_MOVE ∉ moves.
Proof. by_computation. Qed.

Lemma example_capturesFirst : capturesFirst moves.
Proof.
  apply (capturesFirst_app [moveC1; moveC2] [moveH; moveK; moveQ]);
    repeat constructor.
Qed.

(** The example node is an instance of the example of the specification. *)
Lemma example_scenario : scenario store 0 moves moveH moveC1 moveC2 moveK moveQ.
Proof.
  unfold scenario. split_and!; try reflexivity; try (vm_compute; congruence).
  - by_computation.
  - by_computation.
  - by_computation.
  - apply example_capturesFirst.
Qed.

Lemma pull_until_exhaustion_witness :
  (NULL_MOVE ∉ moves) ∧ (moveH = NULL_MOVE ∨ moveH ∈ moves)
  ∧ ∃ ms mo',
      (∀ k, pullAll (S (length moves) + k) store (MoveOrder_new 0 6 true moveH moves)
            = Some (ms, mo'))
      ∧ (if decide (moveH = NULL_MOVE) then ms ≡ₚ moves else moveH :: ms ≡ₚ moves)
      ∧ nextMove store mo' = (NULL_MOVE, mo').
Proof.
  assert (NULL_MOVE ∉ moves) as H1 by by_computation.
  assert (moveH = NULL_MOVE ∨ moveH ∈ moves) as H2 by (right; by_computation).
  split; [exact H1|]. split; [exact H2|].
  exact (pull_until_exhaustion store 0 6 true moveH moves H1 H2).
Defined.

(** C1 fails as stated: the predicted move of the example is a move of
    the list, and pulling until the sentinel returns the four other moves
    only. *)
Lemma pull_omits_predicted_move :
  moveH ∈ moves ∧ (NULL_MOVE ∉ moves)
  ∧ fst <$> pullAll 6 store (MoveOrder_new 0 6 true moveH moves)
    = Some [moveC1; moveC2; moveK; moveQ]
  ∧ ¬ ([moveC1; moveC2; moveK; moveQ] ≡ₚ moves).
Proof.
  split_and!; [by_computation|by_computation|by vm_compute|].
  intros Hp. apply Permutation_length in Hp. discriminate Hp.
Qed.

Lemma hash_move_in_its_stage_witness :
  (NULL_MOVE ∉ moves) ∧ moveH ≠ NULL_MOVE ∧ moveH ∈ moves
  ∧ let mo0 := MoveOrder_new 0 6 true moveH moves in
    let mo1 := generateMoves store mo0 in
    mgStage mo1 = STAGE_HASH_MOVE
    ∧ legalMoves mo1 = removeHashed moveH moves
    ∧ moveH :: legalMoves mo1 ≡ₚ moves
    ∧ nextMove store mo1 = (moveH, mo1)
    ∧ (∃ ms mo', pullAll (length moves) store (generateMoves store mo1) = Some (ms, mo')
         ∧ moveH :: ms ≡ₚ moves)
    ∧ (nextMove store mo0).1 ∈ NULL_MOVE :: legalMoves mo1.
Proof.
  assert (NULL_MOVE ∉ moves) as H1 by by_computation.
  assert (moveH ≠ NULL_MOVE) as H2 by (vm_compute; congruence).
  assert (moveH ∈ moves) as H3 by by_computation.
  split; [exact H1|]. split; [exact H2|]. split; [exact H3|].
  exact (hash_move_in_its_stage store 0 6 true moveH moves H1 H2 H3).
Defined.

(** C2 fails as stated: the first move that [nextMove] returns on the new
    [MoveOrder] of the example is the capture [moveC1], not the predicted
    move. *)
Lemma first_pull_is_not_predicted_move :
  moveH ≠ NULL_MOVE ∧ moveH ∈ moves
  ∧ (nextMove store (MoveOrder_new 0 6 true moveH moves)).1 = moveC1
  ∧ moveC1 ≠ moveH.
Proof.
  split_and!; [vm_compute; congruence|by_computation|by vm_compute
              |vm_compute; congruence].
Qed.

Lemma updateHistories_at_start_witness :
  let mo := MoveOrder_new 0 6 true moveH moves in
  index mo = 0
  ∧ bumped (historyBonus (Z.min (depth mo) 12))
      (color mo, getPieceOnSquare (b store) (color mo) (getStartSq moveK), getEndSq moveK)
      (historyTable (searchParams store))
      (historyTable (searchParams (updateHistories mo moveK store))).
Proof.
  intros mo. split; [reflexivity|].
  exact (proj1 (updateHistories_at_start mo moveK store eq_refl)).
Defined.

(** C3 fails as stated: with the cursor at 0 the call changes the main
    history weight of the best move, here from 100 to 127. *)
Lemma updateHistories_at_start_writes :
  let mo := MoveOrder_new 0 6 true moveH moves in
  let key := (0, getPieceOnSquare (b store) 0 (getStartSq moveK), getEndSq moveK)%Z in
  index mo = 0
  ∧ historyTable (searchParams store) key = 100%Z
  ∧ historyTable (searchParams (updateHistories mo moveK store)) key = 127%Z.
Proof. by vm_compute. Qed.

Lemma scenario_pull_order_witness :
  scenario store 0 moves moveH moveC1 moveC2 moveK moveQ
  ∧ ∃ ms mo',
      pullAll 6 store (MoveOrder_new 0 6 true moveH moves) = Some (ms, mo')
      ∧ ms ≡ₚ [moveC1; moveC2; moveK; moveQ]
      ∧ (moveH ∉ ms)
      ∧ head ms = Some moveC1
      ∧ pulledBefore moveK moveQ ms.
Proof.
  split; [exact example_scenario|].
  exact (scenario_pull_order store 0 6 moves moveH moveC1 moveC2 moveK moveQ
           example_scenario).
Defined.

(** C4 fails as stated: in the example the moves come out in the order
    C1, C2, K, Q, without the predicted move; and when the caller steps
    the generator through the stage HASH_MOVE itself, in the order
    H, C1, C2, K, Q.  Neither is the order H, C1, K, C2, Q. *)
Lemma scenario_order_differs :
  scenario store 0 moves moveH moveC1 moveC2 moveK moveQ
  ∧ fst <$> pullAll 6 store (MoveOrder_new 0 6 true moveH moves)
    = Some [moveC1; moveC2; moveK; moveQ]
  ∧ (let mo1 := generateMoves store (MoveOrder_new 0 6 true moveH moves) in
     (nextMove store mo1).1 = moveH
     ∧ fst <$> pullAll 6 store (generateMoves store (nextMove store mo1).2)
       = Some [moveC1; moveC2; moveK; moveQ])
  ∧ [moveC1; moveC2; moveK; moveQ] ≠ [moveH; moveC1; moveK; moveC2; moveQ]
  ∧ [moveH; moveC1; moveC2; moveK; moveQ] ≠ [moveH; moveC1; moveK; moveC2; moveQ].
Proof.
  split; [exact example_scenario|].
  split_and!; try (by vm_compute); vm_compute; congruence.
Qed.

Lemma scenario_feedback_witness :
  scenario store 0 moves moveH moveC1 moveC2 moveK moveQ
  ∧ ∃ ms mo',
      pullAll 6 store (MoveOrder_new 0 6 true moveH moves) = Some (ms, mo')
      ∧ historyTable (searchParams (updateHistories mo' moveK store))
          (0, getPieceOnSquare (b store) 0 (getStartSq moveK), getEndSq moveK)%Z
        = (historyTable (searchParams store)
             (0, getPieceOnSquare (b store) 0 (getStartSq moveK), getEndSq moveK)
           - (6 * historyTable (searchParams store)
                    (0, getPieceOnSquare (b store) 0 (getStartSq moveK), getEndSq moveK))
               ÷ 64 + 36)%Z.
Proof.
  split; [exact example_scenario|].
  destruct (scenario_feedback store 0 moves moveH moveC1 moveC2 moveK moveQ
              example_scenario) as (ms & mo' & Hp & Hw & _).
  exists ms, mo'. split; [exact Hp|exact Hw].
Defined.

(** C5 fails as stated: in the example the quiet move [moveQ] is pulled
    after the killer, the loop of [updateHistories] stops at the killer,
    and the weight of [moveQ] stays 0 where the penalty would make it
    -36. *)
Lemma scenario_quiet_not_penalized :
  scenario store 0 moves moveH moveC1 moveC2 moveK moveQ
  ∧ ∃ ms mo',
      pullAll 6 store (MoveOrder_new 0 6 true moveH moves) = Some (ms, mo')
      ∧ ms = [moveC1; moveC2; moveK; moveQ]
      ∧ let key := (0, getPieceOnSquare (b store) 0 (getStartSq moveQ),
                    getEndSq moveQ)%Z in
        historyTable (searchParams store) key = 0%Z
        ∧ historyTable (searchParams (updateHistories mo' moveK store)) key = 0%Z
        ∧ historyMalus 6 (historyTable (searchParams store) key) = (-36)%Z.
Proof.
  split; [exact example_scenario|].
  eexists _, _. split; [by vm_compute|]. by vm_compute.
Qed.

Lemma winning_capture_before_losing_witness :
  (NULL_MOVE ∉ moves) ∧ capturesFirst moves
  ∧ moveC1 ∈ moves ∧ moveC2 ∈ moves
  ∧ isCapture moveC1 = true ∧ isCapture moveC2 = true
  ∧ moveH ≠ moveC1 ∧ moveH ≠ moveC2
  ∧ (getSEEForMove (b store) 0 moveC1 > 0)%Z
  ∧ (getSEEForMove (b store) 0 moveC2 < 0)%Z
  ∧ smallValue (getSEEForMove (b store) 0 moveC1)
  ∧ smallValue (getSEEForMove (b store) 0 moveC2)
  ∧ smallValue (getMVVLVAScore (b store) 0 moveC1)
  ∧ smallValue (getMVVLVAScore (b store) 0 moveC2)
  ∧ ∃ ms mo',
      pullAll (S (length moves)) store (MoveOrder_new 0 6 true moveH moves)
      = Some (ms, mo')
      ∧ pulledBefore moveC1 moveC2 ms.
Proof.
  assert (NULL_MOVE ∉ moves) as H1 by by_computation.
  assert (moveC1 ∈ moves) as H3 by by_computation.
  assert (moveC2 ∈ moves) as H4 by by_computation.
  assert (isCapture moveC1 = true) as H5 by reflexivity.
  assert (isCapture moveC2 = true) as H6 by reflexivity.
  assert (moveH ≠ moveC1) as H7 by (vm_compute; congruence).
  assert (moveH ≠ moveC2) as H8 by (vm_compute; congruence).
  assert (getSEEForMove (b store) 0 moveC1 > 0)%Z as H9 by reflexivity.
  assert (getSEEForMove (b store) 0 moveC2 < 0)%Z as H10 by reflexivity.
  assert (smallValue (getSEEForMove (b store) 0 moveC1)) as H11 by (split; reflexivity).
  assert (smallValue (getSEEForMove (b store) 0 moveC2)) as H12 by (split; reflexivity).
  assert (smallValue (getMVVLVAScore (b store) 0 moveC1)) as H13 by (split; reflexivity).
  assert (smallValue (getMVVLVAScore (b store) 0 moveC2)) as H14 by (split; reflexivity).
  split_and!; try assumption; [exact example_capturesFirst|].
  destruct (winning_capture_before_losing store 0 6 moveH moves moveC1 moveC2
              H1 example_capturesFirst H3 H4 H5 H6 H7 H8 H9 H10 H11 H12 H13 H14)
    as (ms & mo' & Hp & Hb & _).
  exists ms, mo'. split; [exact Hp|exact Hb].
Defined.

(** C6 fails as stated: at a principal-variation node, on the list
    [K; C2; C1] (a quiet move in front) the losing capture [moveC2] is
    returned before the winning capture [moveC1], both being scored as
    quiet moves; and on the list [C1; C2] with [moveC1] as predicted move
    the winning capture is not returned at all. *)
Lemma losing_capture_before_winning :
  (getSEEForMove (b store) 0 moveC1 > 0)%Z
  ∧ (getSEEForMove (b store) 0 moveC2 < 0)%Z
  ∧ isCapture moveC1 = true ∧ isCapture moveC2 = true
  ∧ fst <$> pullAll 4 store (MoveOrder_new 0 6 true NULL_MOVE [moveK; moveC2; moveC1])
    = Some [moveK; moveC2; moveC1]
  ∧ fst <$> pullAll 3 store (MoveOrder_new 0 6 true moveC1 [moveC1; moveC2])
    = Some [moveC2].
Proof. by vm_compute. Qed.

Lemma quietStart_on_entering_captures_witness :
  let mo := generateMoves store (MoveOrder_new 0 6 true moveH moves) in
  (mgStage mo = STAGE_HASH_MOVE
   ∨ (mgStage mo = STAGE_NONE ∧ hashed mo = NULL_MOVE))
  ∧ mgStage (generateMoves store mo) = STAGE_CAPTURES
  ∧ quietStart (generateMoves store mo) ≤ length (legalMoves (generateMoves store mo)).
Proof.
  intros mo.
  assert (mgStage mo = STAGE_HASH_MOVE
          ∨ (mgStage mo = STAGE_NONE ∧ hashed mo = NULL_MOVE)) as H1
    by (left; reflexivity).
  split; [exact H1|].
  destruct (quietStart_on_entering_captures store mo H1) as (E1 & _ & E3 & _).
  split; [exact E1|exact E3].
Defined.

(** C7 fails as stated: on the list [K] none of the moves is a capture
    and [quietStart] is 0, not the size 1 of the list; and on the list
    [K; C1] the index 1, above [quietStart = 0], holds a capture. *)
Lemma quietStart_without_captures :
  (let mo' := generateMoves store (MoveOrder_new 0 6 true NULL_MOVE [moveK]) in
   mgStage mo' = STAGE_CAPTURES
   ∧ Forall (λ m, isCapture m = false) (legalMoves mo')
   ∧ quietStart mo' = 0 ∧ length (legalMoves mo') = 1)
  ∧ (let mo' := generateMoves store (MoveOrder_new 0 6 true NULL_MOVE [moveK; moveC1]) in
     mgStage mo' = STAGE_CAPTURES
     ∧ quietStart mo' = 0
     ∧ legalMoves mo' !! 1 = Some moveC1 ∧ isCapture moveC1 = true).
Proof.
  split.
  - split_and!; try (by vm_compute). by repeat constructor.
  - by vm_compute.
Qed.

Lemma history_weight_bounded_witness :
  (1 ≤ 6)%Z
  ∧ (∀ n, Z.min 0 0 ≤ Nat.iter n (historyBonus (Z.min 6 12)) 0
          ≤ Z.max 0 (64 * Z.min 6 12 + Z.min 6 12 * Z.min 6 12))%Z.
Proof.
  assert (1 ≤ 6)%Z as H1 by lia.
  split; [exact H1|]. exact (proj1 (history_weight_bounded 6 0 H1)).
Defined.

Lemma stage_machine_forward_witness :
  let mo1 := runCalls (replicate 5 (CallNextMove store))
               (MoveOrder_new 0 6 true moveH moves) in
  mgStage mo1 = STAGE_QUIETS
  ∧ length (scores mo1) ≤ index mo1
  ∧ nextMove store mo1 = (NULL_MOVE, mo1).
Proof.
  intros mo1.
  assert (mgStage mo1 = STAGE_QUIETS) as H1 by reflexivity.
  assert (length (scores mo1) ≤ index mo1) as H2 by (vm_compute; lia).
  split; [exact H1|]. split; [exact H2|].
  destruct (stage_machine_forward store 0 6 true moveH moves
              (replicate 5 (CallNextMove store)) []) as (_ & _ & _ & Hq).
  exact (proj2 (proj2 (Hq H1)) H2).
Defined.

Lemma exhaustion_stable_witness :
  let mo := runCalls (replicate 4 (CallNextMove store))
              (MoveOrder_new 0 6 true moveH moves) in
  (NULL_MOVE ∉ moves)
  ∧ (nextMove store mo).1 = NULL_MOVE
  ∧ mgStage (nextMove store mo).2 = STAGE_QUIETS
  ∧ index (nextMove store mo).2 = index mo.
Proof.
  intros mo.
  assert (NULL_MOVE ∉ moves) as H1 by by_computation.
  assert ((nextMove store mo).1 = NULL_MOVE) as H2 by reflexivity.
  split; [exact H1|]. split; [exact H2|].
  destruct (exhaustion_stable store 0 6 true moveH moves
              (replicate 4 (CallNextMove store)) H1 H2) as (E1 & _ & E3 & _).
  split; [exact E1|exact E3].
Defined.

(** C10 fails as stated: on a new [MoveOrder] over the empty list the
    first [nextMove] returns the sentinel and moves the stage from NONE
    to QUIETS; on the list [C1] the second [nextMove] returns the sentinel
    and moves the stage from CAPTURES to QUIETS; on the list [H] with
    [moveH] predicted the first [nextMove] returns the sentinel and
    empties the list. *)
Lemma exhaustion_changes_state :
  (let mo := MoveOrder_new 0 6 true NULL_MOVE [] in
   (nextMove store mo).1 = NULL_MOVE
   ∧ mgStage mo = STAGE_NONE ∧ mgStage (nextMove store mo).2 = STAGE_QUIETS)
  ∧ (let mo := (nextMove store (MoveOrder_new 0 6 true NULL_MOVE [moveC1])).2 in
     (nextMove store mo).1 = NULL_MOVE
     ∧ mgStage mo = STAGE_CAPTURES ∧ mgStage (nextMove store mo).2 = STAGE_QUIETS)
  ∧ (let mo := MoveOrder_new 0 6 true moveH [moveH] in
     (nextMove store mo).1 = NULL_MOVE
     ∧ legalMoves mo = [moveH] ∧ legalMoves (nextMove store mo).2 = []).
Proof. by vm_compute. Qed.

End ExampleNode.

(** ** More on the history update *)

Section Feedback.
Context `{!MoveEncoding}.

Local Open Scope Z_scope.

Local Ltac quot_lia := Z.to_euclidean_division_equations; lia.

Local Ltac depth_cases0 d :=
  let Hc := fresh "Hc" in
  assert (d = 0 ∨ d = 1 ∨ d = 2 ∨ d = 3 ∨ d = 4 ∨ d = 5 ∨ d = 6
          ∨ d = 7 ∨ d = 8 ∨ d = 9 ∨ d = 10 ∨ d = 11 ∨ d = 12) as Hc by lia;
  destruct_or!; subst d.

Lemma beforeFirst_cons bestMove m l :
  beforeFirst bestMove (m :: l)
  = if decide (m = bestMove) then [] else m :: beforeFirst bestMove l.
Proof.
  unfold beforeFirst. simpl. case_decide; [done|].
  by destruct (list_find _ l) as [[i x]|].
Qed.

(** The loop with [break] and [continue] against the list it walks. *)
Lemma penalizeTried_fold hd mo best (a k : nat) st :
  (a + k ≤ length (legalMoves mo))%nat →
  penalizeTried hd mo best (seq a k) st
  = foldl (λ s m, adjustHistories (historyMalus hd) (color mo) m s) st
      (filter (λ m, isCapture m = false)
         (beforeFirst best (take k (drop a (legalMoves mo))))).
Proof.
  revert a st. induction k as [|k IH]; intros a st Hlen; [done|].
  destruct (lookup_lt_is_Some_2 (legalMoves mo) a ltac:(lia)) as [m Hm].
  rewrite (drop_S _ _ _ Hm). simpl.
  rewrite (list_lookup_total_correct _ _ _ Hm), beforeFirst_cons.
  case_decide as Hb; [done|].
  destruct (isCapture m) eqn:Ec.
  - rewrite filter_cons_False by (rewrite Ec; done). apply IH. lia.
  - rewrite filter_cons_True by done. simpl. apply IH. lia.
Qed.

Lemma sameWeights_refl st : sameWeights st st.
Proof.
  split_and!; [done| |].
  - by destruct (counterMoveHistory (ssi st)); constructor.
  - by destruct (followupMoveHistory (ssi st)); constructor.
Qed.

Lemma sameWeights_trans st1 st2 st3 :
  sameWeights st1 st2 → sameWeights st2 st3 → sameWeights st1 st3.
Proof.
  intros (A1&A2&A3) (B1&B2&B3). split_and!.
  - intros k. by rewrite B1.
  - destruct A2 as [t1 t2 A2|]; inversion B2 as [? t3 B2'|]; subst; constructor.
    intros k. by rewrite B2'.
  - destruct A3 as [t1 t2 A3|]; inversion B3 as [? t3 B3'|]; subst; constructor.
    intros k. by rewrite B3'.
Qed.

Lemma sameWeights_adjustHistories f c m st :
  (∀ w, f w = w) → sameWeights st (adjustHistories f c m st).
Proof.
  intros Hf.
  destruct (adjustHistories_spec f c m st) as (_ & _ & _ & H1 & H2 & H3).
  assert (∀ K `{EqDecision K} (k : K) (t t' : K → Z),
            bumped f k t t' → ∀ k', t' k' = t k') as Hb.
  { intros K ? k t t' Hbt k'. rewrite (Hbt k'). by case_decide. }
  split_and!.
  - by eapply Hb.
  - destruct H2; constructor. by eapply Hb.
  - destruct H3; constructor. by eapply Hb.
Qed.

Lemma historyBonus_bounded d B w :
  0 ≤ d ≤ 12 → 912 ≤ B → - B ≤ w ≤ B → - B ≤ historyBonus d w ≤ B.
Proof. intros Hd HB Hw. unfold historyBonus. depth_cases0 d; quot_lia. Qed.

Lemma historyMalus_bounded d B w :
  0 ≤ d ≤ 12 → 912 ≤ B → - B ≤ w ≤ B → - B ≤ historyMalus d w ≤ B.
Proof. intros Hd HB Hw. unfold historyMalus. depth_cases0 d; quot_lia. Qed.

Lemma weightsBounded_adjustHistories f c m B st :
  (∀ w, - B ≤ w ≤ B → - B ≤ f w ≤ B) →
  weightsBounded B st → weightsBounded B (adjustHistories f c m st).
Proof.
  intros Hf (W1 & W2 & W3).
  destruct (adjustHistories_spec f c m st) as (_ & _ & _ & H1 & H2 & H3).
  assert (∀ K `{EqDecision K} (k : K) (t t' : K → Z),
            bumped f k t t' → tableBounded B t → tableBounded B t') as Hb.
  { intros K ? k t t' Hbt Ht k'. rewrite (Hbt k'). case_decide; [apply Hf|]; apply Ht. }
  split_and!.
  - by eapply Hb.
  - destruct H2 as [t t' H2|]; [|done]. simpl in *. by eapply Hb.
  - destruct H3 as [t t' H3|]; [|done]. simpl in *. by eapply Hb.
Qed.

(** [updateHistories] as a fold over the moves it penalises. *)
Lemma updateHistories_fold mo bestMove st :
  (index mo - 1 ≤ length (legalMoves mo))%nat →
  updateHistories mo bestMove st
  = foldl (λ s m, adjustHistories (historyMalus (Z.min (depth mo) 12)) (color mo) m s)
      (adjustHistories (historyBonus (Z.min (depth mo) 12)) (color mo) bestMove st)
      (penalised mo bestMove).
Proof.
  intros Hlen. unfold updateHistories, penalised. case_decide as Hz.
  - replace (index mo - 1)%nat with 0%nat by lia. done.
  - rewrite penalizeTried_fold by (simpl; lia). by rewrite drop_0.
Qed.

(** What holds of a store before the loop of [updateHistories] and is
    kept by every penalty holds after the loop. *)
Lemma penalizeTried_preserves (P : Store → Prop) hd mo best idxs st :
  (∀ m s, P s → P (adjustHistories (historyMalus hd) (color mo) m s)) →
  P st → P (penalizeTried hd mo best idxs st).
Proof.
  intros Hstep. revert st. induction idxs as [|i idxs IH]; intros st Hst; [done|].
  simpl. case_decide; [done|]. destruct (isCapture _); auto.
Qed.

Lemma updateHistories_preserves (P : Store → Prop) mo best st :
  (∀ f m s, f = historyBonus (Z.min (depth mo) 12)
            ∨ f = historyMalus (Z.min (depth mo) 12) →
            P s → P (adjustHistories f (color mo) m s)) →
  P st → P (updateHistories mo best st).
Proof.
  intros Hstep Hst. unfold updateHistories.
  case_decide; [|apply penalizeTried_preserves]; eauto.
Qed.

Lemma beforeFirst_elem_of bestMove l m :
  m ∈ beforeFirst bestMove l → m ≠ bestMove ∧ ∃ j, l !! j = Some m.
Proof.
  unfold beforeFirst. destruct (list_find _ l) as [[i x]|] eqn:E.
  - apply list_find_Some in E as (_ & _ & Hbefore).
    intros [j Hj]%list_elem_of_lookup.
    apply lookup_take_Some in Hj as [Hj Hlt].
    split; [exact (Hbefore j m Hj Hlt)|by exists j].
  - apply list_find_None in E. rewrite list.Forall_forall in E.
    intros Hin. split; [by apply E|]. by apply list_elem_of_lookup.
Qed.

(** X7: [updateHistories] rewards the best move and then penalises, in
    the order of the list, the moves that are no captures among the first
    [index - 1] entries in front of the first entry equal to the best
    move.  It penalises no capture, not the best move, and no move at the
    index [index - 1] (the move returned last) or behind it. *)
Theorem updateHistories_penalised_moves mo bestMove st :
  (index mo - 1 ≤ length (legalMoves mo))%nat →
  let d := Z.min (depth mo) 12 in
  updateHistories mo bestMove st
  = foldl (λ s m, adjustHistories (historyMalus d) (color mo) m s)
      (adjustHistories (historyBonus d) (color mo) bestMove st)
      (penalised mo bestMove)
  ∧ (∀ m, m ∈ penalised mo bestMove →
       isCapture m = false ∧ m ≠ bestMove
       ∧ ∃ i, (i < index mo - 1)%nat ∧ legalMoves mo !! i = Some m).
Proof.
  intros Hlen d. split; [by apply updateHistories_fold|].
  intros m [Hq Hin]%list_elem_of_filter.
  apply beforeFirst_elem_of in Hin as [Hne [j Hj]].
  apply lookup_take_Some in Hj as [Hj Hlt].
  split_and!; [done..|]. by exists j.
Qed.

(** X9: at a depth of 0 or more, [updateHistories] keeps every weight of
    the three history tables between [-B] and [B] when the weights were
    there before, for every [B] from 912 = 64*12 + 12*12 up to
    178956970, the greatest bound for which the product [histDepth * w]
    of the code is a value of [int] for every such weight [w]. *)
Theorem updateHistories_weights_bounded mo bestMove B st :
  0 ≤ depth mo → 912 ≤ B ≤ 178956970 →
  weightsBounded B st →
  weightsBounded B (updateHistories mo bestMove st)
  ∧ (∀ w, - B ≤ w ≤ B → fitsInt (Z.min (depth mo) 12 * w)).
Proof.
  intros Hd HB Hst. split.
  - apply (updateHistories_preserves (weightsBounded B)); [|done].
    intros f m s [-> | ->] Hs; apply weightsBounded_adjustHistories; try done;
      intros w Hw; [apply historyBonus_bounded|apply historyMalus_bounded]; lia.
  - intros w Hw. unfold fitsInt. nia.
Qed.

(** X13: at depth 0 the call changes no weight: [histDepth] is 0 and every
    update is [w - 0*w/64 + 0]. *)
Theorem updateHistories_depth_zero mo bestMove st :
  depth mo = 0 → sameWeights st (updateHistories mo bestMove st).
Proof.
  intros Hd.
  apply (updateHistories_preserves (sameWeights st)); [|apply sameWeights_refl].
  rewrite Hd. change (Z.min 0 12) with 0.
  intros f m s Hf Hs. eapply sameWeights_trans; [exact Hs|].
  apply sameWeights_adjustHistories. intros w.
  destruct Hf as [-> | ->]; unfold historyBonus, historyMalus;
    rewrite Z.mul_0_l, Z.quot_0_l by done; lia.
Qed.

End Feedback.

(** ** More on the penalty *)

Section Penalty.
Context `{!MoveEncoding}.

Local Open Scope Z_scope.

Lemma historyMalus_mirror d w : historyMalus d w = - historyBonus d (- w).
Proof.
  unfold historyMalus, historyBonus.
  rewrite Z.mul_opp_r, Z.quot_opp_l by done. lia.
Qed.

Lemma iter_historyMalus_mirror d w n :
  Nat.iter n (historyMalus d) w = - Nat.iter n (historyBonus d) (- w).
Proof.
  induction n as [|n IH]; simpl; [lia|].
  rewrite IH, historyMalus_mirror. by rewrite Z.opp_involutive.
Qed.

Lemma historyBonus_reaches_fixed d w :
  1 ≤ d ≤ 12 →
  ∃ N, historyBonus d (Nat.iter N (historyBonus d) w) = Nat.iter N (historyBonus d) w.
Proof.
  intros Hd. destruct (decide (w ≤ historyBonus d w)) as [Hup|Hdown].
  - apply (historyBonus_climb d (Z.max w (64 * d + d * d))
             (Z.to_nat (Z.max w (64 * d + d * d) - w))); lia.
  - apply (historyBonus_descend d (Z.min w 0) (Z.to_nat (w - Z.min w 0))); lia.
Qed.

(** X10: for a depth of at least 1, with [d = min(depth, 12)], the
    weights [w, g w, g (g w), ...] of the penalty [g w = w - d*w/64 - d*d]
    stay between [min w (-(64*d + d*d))] and [max w 0], and from some call
    on they rest at a fixed point of the penalty, between [-(64*d + 63)]
    and [-64*d]. *)
Theorem history_penalty_bounded depth w :
  1 ≤ depth →
  let d := Z.min depth 12 in
  (∀ n, Z.min w (- (64 * d + d * d)) ≤ Nat.iter n (historyMalus d) w ≤ Z.max w 0)
  ∧ ∃ N,
      (∀ n, (N ≤ n)%nat → Nat.iter n (historyMalus d) w = Nat.iter N (historyMalus d) w)
      ∧ historyMalus d (Nat.iter N (historyMalus d) w) = Nat.iter N (historyMalus d) w
      ∧ - (64 * d + 63) ≤ Nat.iter N (historyMalus d) w ≤ - (64 * d).
Proof.
  intros Hdepth d. assert (1 ≤ d ≤ 12) as Hd by (unfold d; lia).
  split.
  - intros n. rewrite iter_historyMalus_mirror.
    pose proof (iter_historyBonus_range d (- w) (Z.min (- w) 0)
                  (Z.max (- w) (64 * d + d * d)) n Hd
                  ltac:(lia) ltac:(lia) ltac:(lia)). lia.
  - destruct (historyBonus_reaches_fixed d (- w) Hd) as [N HN].
    pose proof (historyBonus_fixed d _ Hd HN) as Hfix.
    exists N. split_and!.
    + intros n Hn. rewrite !iter_historyMalus_mirror.
      by rewrite (iter_fixed (historyBonus d) (- w) N n HN Hn).
    + rewrite historyMalus_mirror, iter_historyMalus_mirror.
      rewrite Z.opp_involutive. by rewrite HN.
    + rewrite iter_historyMalus_mirror. lia.
    + rewrite iter_historyMalus_mirror. lia.
Qed.

End Penalty.

(** ** More on the generator and the selector *)

Section Generator.
Context `{!MoveEncoding}.

Lemma reachable_on st cs mo :
  callsOn st cs → wf mo → aligned st mo →
  wf (runCalls cs mo) ∧ aligned st (runCalls cs mo) ∧ sameNode mo (runCalls cs mo).
Proof.
  intros Hcs. revert mo. induction Hcs as [|c cs Hc Hcs IH]; intros mo Hwf Ha.
  { split_and!; [done..|apply sameNode_refl]. }
  simpl. destruct c as [st'|st']; simpl in Hc; subst st'; simpl.
  - destruct (IH (generateMoves st mo)) as (W & A & N);
      [by apply wf_generateMoves|by apply aligned_generateMoves|].
    split_and!; [done..|]. eapply sameNode_trans; [apply (sameNode_generateMoves st)|done].
  - destruct (IH (nextMove st mo).2) as (W & A & N);
      [by apply wf_nextMove|by apply aligned_nextMove|].
    split_and!; [done..|]. eapply sameNode_trans; [apply (sameNode_nextMove st)|done].
Qed.

Lemma length_generateMoves st mo :
  length (legalMoves (generateMoves st mo)) ≤ length (legalMoves mo).
Proof.
  unfold generateMoves. destruct (mgStage mo); try done.
  - case_decide; [simpl; apply sublist_length, removeHashed_sublist|].
    by rewrite (proj1 (proj2 (enterCaptures_fields st mo))).
  - by rewrite (proj1 (proj2 (enterCaptures_fields st mo))).
Qed.

Lemma length_refill n st mo :
  length (legalMoves (refill n st mo)) ≤ length (legalMoves mo).
Proof.
  revert mo. induction n as [|n IH]; intros mo; [done|].
  unfold refill; fold refill. repeat case_decide; try done.
  etrans; [apply IH|apply length_generateMoves].
Qed.

Lemma length_nextMove st mo :
  wf mo → length (legalMoves (nextMove st mo).2) ≤ length (legalMoves mo).
Proof.
  intros Hwf. unfold nextMove. case_decide; [done|].
  case_decide; [simpl; apply length_refill|].
  destruct (selectBest_spec st _ (wf_refill 3 st mo Hwf) ltac:(lia)) as (_&_&_&L&_).
  rewrite L, swap_length. apply length_refill.
Qed.

Lemma length_runCalls cs mo :
  wf mo → length (legalMoves (runCalls cs mo)) ≤ length (legalMoves mo).
Proof.
  revert mo. induction cs as [|c cs IH]; intros mo Hwf; [done|].
  simpl. destruct c as [st|st]; simpl.
  - etrans; [apply IH; by apply wf_generateMoves|apply length_generateMoves].
  - etrans; [apply IH; by apply wf_nextMove|by apply length_nextMove].
Qed.

(** X11: on every state that calls of [generateMoves] and [nextMove]
    reach from a new [MoveOrder], the cursor is inside the scored prefix
    and the scored prefix inside the list ([index <= scores.size() <=
    legalMoves.size()]), the list holds moves of the list the node was
    built with and is no longer than it; nothing is scored before
    [STAGE_CAPTURES], the captures below [quietStart] are scored in
    [STAGE_CAPTURES], and every move is scored in [STAGE_QUIETS]. *)
Theorem reachable_state_in_bounds cs c d pv h l :
  let mo := runCalls cs (MoveOrder_new c d pv h l) in
  index mo ≤ length (scores mo) ≤ length (legalMoves mo)
  ∧ length (legalMoves mo) ≤ length l
  ∧ legalMoves mo ⊆ l
  ∧ match mgStage mo with
    | STAGE_NONE | STAGE_HASH_MOVE => scores mo = []
    | STAGE_CAPTURES =>
        length (scores mo) = quietStart mo ∧ quietStart mo ≤ length (legalMoves mo)
    | STAGE_QUIETS => length (scores mo) = length (legalMoves mo)
    end.
Proof.
  intros mo.
  destruct (wf_reachable cs c d pv h l) as [Hi Hs]. fold mo in Hi, Hs.
  split_and!.
  - done.
  - destruct (mgStage mo); try lia.
    + rewrite Hs. simpl. lia.
    + destruct Hs as [-> _]. simpl. lia.
  - apply (length_runCalls cs (MoveOrder_new c d pv h l)), wf_new.
  - apply (legalMoves_runCalls_subseteq cs (MoveOrder_new c d pv h l)), wf_new.
  - destruct (mgStage mo); tauto.
Qed.

(** X12: the two lists stay paired.  On every state reached from a new
    [MoveOrder] over a list with its captures first, by calls that all
    find the same store, each scored entry is the score of the move at
    the same index: the capture score for a capture, the quiet score for
    another move. *)
Theorem scores_paired_with_moves st cs c d pv h l :
  callsOn st cs → capturesFirst l →
  let mo := runCalls cs (MoveOrder_new c d pv h l) in
  ∀ i m s, legalMoves mo !! i = Some m → scores mo !! i = Some s →
    s = scoreOf st (MoveOrder_new c d pv h l) m.
Proof.
  intros Hcs Hcf mo i m s Hm Hs.
  destruct (reachable_on st cs (MoveOrder_new c d pv h l) Hcs (wf_new _ _ _ _ _)
              (aligned_new st c d pv h l Hcf)) as (_ & [Ha _] & Hn).
  fold mo in Ha, Hn. rewrite <-(scoreOf_sameNode st _ mo) by done.
  by apply (Ha i).
Qed.

(** X1: on a state with a scored entry under the cursor, [selectBest]
    returns the move at the index [k] of the greatest score at or behind
    the cursor, the first such index when the greatest score occurs more
    than once, and moves the cursor on by one. *)
Theorem selectBest_first_maximum st mo :
  wf mo → index mo < length (scores mo) →
  let r := selectBest st mo in
  index r.2 = S (index mo)
  ∧ ∃ k, index mo ≤ k < length (scores mo)
      ∧ legalMoves mo !! k = Some r.1
      ∧ (∀ j, index mo ≤ j < length (scores mo) →
           (scores mo !!! j ≤ scores mo !!! k)%Z)
      ∧ (∀ j, index mo ≤ j < k → (scores mo !!! j < scores mo !!! k)%Z).
Proof.
  intros Hwf Hlt r.
  destruct (selectBest_spec st mo Hwf Hlt) as (_ & _ & Hi & _ & _ & Hm & _).
  destruct (findBest_spec (scores mo) (index mo) Hlt) as (Hb1 & Hb2 & Hb3 & Hb4).
  split; [done|].
  exists (findBest (scores mo) (index mo)).1. rewrite <-Hb2. done.
Qed.

(** X5: when a call of [nextMove], on a state reached as in X12, leaves
    the generator in [STAGE_CAPTURES], the move it returned is a capture
    whose score is at least [SCORE_WINNING_CAPTURE]: the call that finds
    a smaller best score scores the quiet moves and leaves the stage. *)
Theorem captures_stage_returns_winning st cs c d pv h l :
  callsOn st cs → capturesFirst l →
  let mo := runCalls cs (MoveOrder_new c d pv h l) in
  mgStage (nextMove st mo).2 = STAGE_CAPTURES →
  isCapture (nextMove st mo).1 = true
  ∧ (SCORE_WINNING_CAPTURE ≤ scoreOf st (MoveOrder_new c d pv h l) (nextMove st mo).1)%Z.
Proof.
  intros Hcs Hcf mo.
  destruct (reachable_on st cs (MoveOrder_new c d pv h l) Hcs (wf_new _ _ _ _ _)
              (aligned_new st c d pv h l Hcf)) as (Hwf & Ha & Hn).
  fold mo in Hwf, Ha, Hn.
  rewrite <-!(scoreOf_sameNode st _ mo) by done.
  unfold nextMove. case_decide as Hh; [simpl; congruence|].
  pose proof (wf_refill 3 st mo Hwf) as Hwf1.
  pose proof (aligned_refill 3 st mo Hwf Ha) as [Hal Hcap].
  pose proof (refill_enough st mo) as Hen.
  pose proof (sameNode_refill 3 st mo) as Hn1.
  set (mo1 := refill 3 st mo) in *.
  case_decide as Hex.
  { simpl. intros E. destruct Hen as [?|Hq]; [lia|congruence]. }
  intros Hst.
  destruct (selectBest_spec st mo1 Hwf1 ltac:(lia))
    as (_ & _ & _ & _ & _ & Hm & _ & _ & Hrk & Hwin).
  destruct (Hwin Hst) as [Hbest _].
  destruct (findBest_spec (scores mo1) (index mo1) ltac:(lia)) as (Hb1 & Hb2 & _).
  set (best := findBest (scores mo1) (index mo1)) in *.
  assert (mgStage mo1 = STAGE_CAPTURES) as E1.
  { rewrite Hst in Hrk. destruct (refill_stage st mo Hwf) as [E|E]; [done|].
    fold mo1 in E. rewrite E in Hrk. simpl in Hrk. lia. }
  rewrite E1 in Hcap. destruct Hwf1 as [_ Hs]. rewrite E1 in Hs.
  split.
  - apply (Hcap _ _ Hm). lia.
  - destruct (lookup_lt_is_Some_2 (scores mo1) best.1 ltac:(lia)) as [s Hsc].
    rewrite <-(scoreOf_sameNode st mo mo1) by done.
    rewrite <-(Hal _ _ _ Hm Hsc).
    rewrite (list_lookup_total_correct _ _ _ Hsc) in Hb2. lia.
Qed.

(** The moves returned by calls that all return a move stand in the
    list, behind the moves returned before, in the order of the calls. *)
Lemma pullN_prefix n st mo :
  wf mo → mgStage mo ≠ STAGE_HASH_MOVE →
  NULL_MOVE ∉ (pullN n st mo).1 →
  take (index (pullN n st mo).2) (legalMoves (pullN n st mo).2)
  = take (index mo) (legalMoves mo) ++ (pullN n st mo).1
  ∧ index (pullN n st mo).2 = index mo + n.
Proof.
  revert mo. induction n as [|n IH]; intros mo Hwf Hne Hnull.
  { simpl. rewrite app_nil_r. split; [done|lia]. }
  simpl in *. apply not_elem_of_cons in Hnull as [Hr Hnull].
  destruct (nextMove_step st mo Hwf Hne) as (W & S1 & Hcase).
  destruct Hcase as [(_ & R1 & _)|(_ & Hidx & Htk)]; [done|].
  destruct (IH (nextMove st mo).2 W) as (IH1 & IH2);
    [destruct S1 as [-> | ->]; done|done|].
  rewrite IH1, IH2, Hidx, Htk, <-app_assoc. split; [done|lia].
Qed.

(** X6: after [n] calls of [nextMove] on a new [MoveOrder] that all
    returned a move, the cursor is [n] and the first [n] entries of the
    list are the moves returned, in the order of the calls: the entries
    that [updateHistories] reads as the moves tried. *)
Theorem pulled_moves_in_list_order n st c d pv h l :
  let r := pullN n st (MoveOrder_new c d pv h l) in
  NULL_MOVE ∉ r.1 →
  index r.2 = n ∧ take n (legalMoves r.2) = r.1.
Proof.
  intros r Hnull.
  destruct (pullN_prefix n st (MoveOrder_new c d pv h l) (wf_new _ _ _ _ _)
              ltac:(done) Hnull) as [Htk Hidx].
  fold r in Htk, Hidx. simpl in Htk, Hidx. rewrite Hidx in Htk. done.
Qed.

(** X14: a predicted move that is not in the list.  [generateMoves]
    removes nothing and still enters HASH_MOVE, where [nextMove] returns
    the predicted move although the list does not hold it; pulling on the
    new [MoveOrder] returns a permutation of the whole list. *)
Theorem predicted_move_not_in_list st c d pv h l :
  NULL_MOVE ∉ l → h ≠ NULL_MOVE → h ∉ l →
  let mo0 := MoveOrder_new c d pv h l in
  let mo1 := generateMoves st mo0 in
  mgStage mo1 = STAGE_HASH_MOVE
  ∧ legalMoves mo1 = l
  ∧ nextMove st mo1 = (h, mo1)
  ∧ ∃ ms mo', pullAll (S (length l)) st mo0 = Some (ms, mo') ∧ ms ≡ₚ l.
Proof.
  intros Hnull Hh Hin mo0 mo1.
  assert (mo1 = set_legalMoves l (set_mgStage STAGE_HASH_MOVE mo0)) as Hmo1.
  { unfold mo1, generateMoves. simpl. rewrite decide_True by done.
    by rewrite removeHashed_absent. }
  assert (pending mo0 = l) as Hp0.
  { unfold mo0. rewrite pending_new, decide_True by done.
    by apply removeHashed_absent. }
  split_and!.
  - by rewrite Hmo1.
  - by rewrite Hmo1.
  - unfold nextMove. rewrite decide_True by (by rewrite Hmo1). by rewrite Hmo1.
  - destruct (pullAll_pending st (S (length l)) mo0 (wf_new _ _ _ _ _) ltac:(done))
      as (ms & mo' & Hp & Hms & _).
    + by rewrite Hp0.
    + rewrite Hp0. lia.
    + exists ms, mo'. split; [done|]. by rewrite Hms, Hp0.
Qed.

End Generator.

(** ** More on the order of the moves *)

Section Tiers.
Context `{!MoveEncoding}.

Lemma pullAll_new_total st c d pv h l :
  NULL_MOVE ∉ l →
  ∃ ms mo', pullAll (S (length l)) st (MoveOrder_new c d pv h l) = Some (ms, mo').
Proof.
  intros Hnull. set (mo := MoveOrder_new c d pv h l).
  destruct (pullAll_pending st (S (length l)) mo (wf_new _ _ _ _ _) ltac:(done))
    as (ms & mo' & Hp & _).
  - intros Hn. by apply Hnull, (pending_subseteq mo).
  - assert (length (pending mo) ≤ length l); [|lia].
    apply sublist_length. unfold mo. rewrite pending_new.
    case_decide; [apply removeHashed_sublist|done].
  - by exists ms, mo'.
Qed.

Lemma pullAll_new_before st c d pv h l m1 m2 fuel ms mo' :
  NULL_MOVE ∉ l → capturesFirst l →
  m1 ∈ l → m2 ∈ l → h ≠ m1 → h ≠ m2 →
  (scoreOf st (MoveOrder_new c d pv h l) m2
   < scoreOf st (MoveOrder_new c d pv h l) m1)%Z →
  isCapture m1 = true ∨ isCapture m2 = false →
  pullAll fuel st (MoveOrder_new c d pv h l) = Some (ms, mo') →
  pulledBefore m1 m2 ms.
Proof.
  intros Hnull Hcf Hin1 Hin2 Hh1 Hh2 Hsc Hkind Hp.
  set (mo := MoveOrder_new c d pv h l) in *.
  assert (∀ m, m ∈ l → h ≠ m → m ∈ pending mo) as Hpend.
  { intros m Hm Hne. unfold mo. rewrite pending_new. case_decide; [|done].
    by apply removeHashed_elem_of. }
  apply (pullAll_before st fuel mo m1 m2 ms mo'); auto.
  - apply wf_new.
  - by apply aligned_new.
  - intros Hn. by apply Hnull, (pending_subseteq mo).
Qed.

(** X2: the order of the pulls follows the scores.  On a new [MoveOrder]
    over a list with its captures first, of two moves of the list, neither
    of them the predicted move, the one with the greater score is returned
    before the other one, unless it is a quiet move and the other one a
    capture (the quiet moves are scored after the first captures have
    been returned). *)
Theorem pull_order_follows_scores st c d pv h l m1 m2 :
  NULL_MOVE ∉ l → capturesFirst l →
  m1 ∈ l → m2 ∈ l → h ≠ m1 → h ≠ m2 →
  (scoreOf st (MoveOrder_new c d pv h l) m2
   < scoreOf st (MoveOrder_new c d pv h l) m1)%Z →
  isCapture m1 = true ∨ isCapture m2 = false →
  ∃ ms mo',
    pullAll (S (length l)) st (MoveOrder_new c d pv h l) = Some (ms, mo')
    ∧ pulledBefore m1 m2 ms.
Proof.
  intros Hnull Hcf Hin1 Hin2 Hh1 Hh2 Hsc Hkind.
  destruct (pullAll_new_total st c d pv h l Hnull) as (ms & mo' & Hp).
  exists ms, mo'. split; [done|].
  by apply (pullAll_new_before st c d pv h l m1 m2 (S (length l)) ms mo').
Qed.



End Tiers.

(** ** The further theorems on the example node *)

Section ExampleNodeMore.
Import Example.
Local Existing Instance encoding.

Local Ltac by_computation := apply (bool_decide_unpack _); vm_compute; exact I.


Lemma example_weights_bounded : weightsBounded 912 store.
Proof.
  split_and!.
  - intros k. simpl. case_decide; lia.
  - intros k. simpl. lia.
  - done.
Qed.

Lemma selectBest_first_maximum_witness :
  let mo := generateMoves store
              (generateMoves store (MoveOrder_new 0 6 true moveH moves)) in
  wf mo ∧ index mo < length (scores mo)
  ∧ index (selectBest store mo).2 = S (index mo).
Proof.
  intros mo.
  assert (wf mo) as H1 by apply wf_generateMoves, wf_generateMoves, wf_new.
  assert (index mo < length (scores mo)) as H2 by (vm_compute; lia).
  split; [exact H1|]. split; [exact H2|].
  exact (proj1 (selectBest_first_maximum store mo H1 H2)).
Defined.

Lemma pull_order_follows_scores_witness :
  (NULL_MOVE ∉ moves) ∧ capturesFirst moves
  ∧ moveK ∈ moves ∧ moveQ ∈ moves ∧ moveH ≠ moveK ∧ moveH ≠ moveQ
  ∧ (scoreOf store (MoveOrder_new 0 6 true moveH moves) moveQ
     < scoreOf store (MoveOrder_new 0 6 true moveH moves) moveK)%Z
  ∧ (isCapture moveK = true ∨ isCapture moveQ = false)
  ∧ ∃ ms mo',
      pullAll (S (length moves)) store (MoveOrder_new 0 6 true moveH moves)
      = Some (ms, mo')
      ∧ pulledBefore moveK moveQ ms.
Proof.
  assert (NULL_MOVE ∉ moves) as H1 by by_computation.
  assert (moveK ∈ moves) as H3 by by_computation.
  assert (moveQ ∈ moves) as H4 by by_computation.
  assert (moveH ≠ moveK) as H5 by (vm_compute; congruence).
  assert (moveH ≠ moveQ) as H6 by (vm_compute; congruence).
  assert (scoreOf store (MoveOrder_new 0 6 true moveH moves) moveQ
          < scoreOf store (MoveOrder_new 0 6 true moveH moves) moveK)%Z as H7
    by reflexivity.
  assert (isCapture moveK = true ∨ isCapture moveQ = false) as H8
    by (right; reflexivity).
  split_and!; try assumption; [exact example_capturesFirst|].
  exact (pull_order_follows_scores store 0 6 true moveH moves moveK moveQ
           H1 example_capturesFirst H3 H4 H5 H6 H7 H8).
Defined.



Lemma captures_stage_returns_winning_witness :
  let mo := runCalls [] (MoveOrder_new 0 6 true moveH moves) in
  callsOn store [] ∧ capturesFirst moves
  ∧ mgStage (nextMove store mo).2 = STAGE_CAPTURES
  ∧ isCapture (nextMove store mo).1 = true.
Proof.
  intros mo.
  assert (callsOn store []) as H1 by constructor.
  assert (mgStage (nextMove store mo).2 = STAGE_CAPTURES) as H3 by reflexivity.
  split; [exact H1|]. split; [exact example_capturesFirst|]. split; [exact H3|].
  exact (proj1 (captures_stage_returns_winning store [] 0 6 true moveH moves
                  H1 example_capturesFirst H3)).
Defined.

Lemma pulled_moves_in_list_order_witness :
  let r := pullN 3 store (MoveOrder_new 0 6 true moveH moves) in
  (NULL_MOVE ∉ r.1) ∧ index r.2 = 3 ∧ take 3 (legalMoves r.2) = r.1.
Proof.
  intros r.
  assert (NULL_MOVE ∉ r.1) as H1 by by_computation.
  split; [exact H1|].
  exact (pulled_moves_in_list_order 3 store 0 6 true moveH moves H1).
Defined.

Lemma updateHistories_penalised_moves_witness :
  let mo := (pullN 4 store (MoveOrder_new 0 6 true moveH moves)).2 in
  index mo - 1 ≤ length (legalMoves mo)
  ∧ penalised mo moveQ = [moveK]
  ∧ updateHistories mo moveQ store
    = foldl (λ s m, adjustHistories (historyMalus (Z.min (depth mo) 12)) (color mo) m s)
        (adjustHistories (historyBonus (Z.min (depth mo) 12)) (color mo) moveQ store)
        (penalised mo moveQ).
Proof.
  intros mo.
  assert (index mo - 1 ≤ length (legalMoves mo)) as H1 by (vm_compute; lia).
  split; [exact H1|]. split; [reflexivity|].
  exact (proj1 (updateHistories_penalised_moves mo moveQ store H1)).
Defined.

Lemma updateHistories_weights_bounded_witness :
  let mo := (pullN 4 store (MoveOrder_new 0 6 true moveH moves)).2 in
  (0 ≤ depth mo)%Z ∧ (912 ≤ 912 ≤ 178956970)%Z ∧ weightsBounded 912 store
  ∧ weightsBounded 912 (updateHistories mo moveQ store).
Proof.
  intros mo.
  assert (0 ≤ depth mo)%Z as H1 by (vm_compute; congruence).
  assert (912 ≤ 912 ≤ 178956970)%Z as H2 by lia.
  split; [exact H1|]. split; [exact H2|]. split; [exact example_weights_bounded|].
  exact (proj1 (updateHistories_weights_bounded mo moveQ 912 store H1 H2
                  example_weights_bounded)).
Defined.

Lemma updateHistories_depth_zero_witness :
  let mo := (pullN 4 store (MoveOrder_new 0 0 true moveH moves)).2 in
  depth mo = 0%Z ∧ sameWeights store (updateHistories mo moveQ store).
Proof.
  intros mo.
  assert (depth mo = 0%Z) as H1 by reflexivity.
  split; [exact H1|].
  exact (updateHistories_depth_zero mo moveQ store H1).
Defined.

Lemma history_penalty_bounded_witness :
  (1 ≤ 6)%Z
  ∧ (∀ n, Z.min 0 (- (64 * Z.min 6 12 + Z.min 6 12 * Z.min 6 12))
          ≤ Nat.iter n (historyMalus (Z.min 6 12)) 0 ≤ Z.max 0 0)%Z.
Proof.
  assert (1 ≤ 6)%Z as H1 by lia.
  split; [exact H1|]. exact (proj1 (history_penalty_bounded 6 0 H1)).
Defined.

Lemma scores_paired_with_moves_witness :
  let cs := [CallNextMove store; CallNextMove store] in
  let mo := runCalls cs (MoveOrder_new 0 6 true moveH moves) in
  callsOn store cs ∧ capturesFirst moves
  ∧ legalMoves mo !! 2 = Some moveK
  ∧ scores mo !! 2 = Some (SCORE_EVEN_CAPTURE - 1)%Z
  ∧ (SCORE_EVEN_CAPTURE - 1)%Z
    = scoreOf store (MoveOrder_new 0 6 true moveH moves) moveK.
Proof.
  intros cs mo.
  assert (callsOn store cs) as H1 by (repeat constructor).
  assert (legalMoves mo !! 2 = Some moveK) as H3 by reflexivity.
  assert (scores mo !! 2 = Some (SCORE_EVEN_CAPTURE - 1)%Z) as H4 by reflexivity.
  split; [exact H1|]. split; [exact example_capturesFirst|].
  split; [exact H3|]. split; [exact H4|].
  exact (scores_paired_with_moves store cs 0 6 true moveH moves H1
           example_capturesFirst 2 moveK _ H3 H4).
Defined.

Lemma predicted_move_not_in_list_witness :
  (NULL_MOVE ∉ [moveC1; moveK]) ∧ moveH ≠ NULL_MOVE ∧ (moveH ∉ [moveC1; moveK])
  ∧ nextMove store (generateMoves store (MoveOrder_new 0 6 true moveH [moveC1; moveK]))
    = (moveH, generateMoves store (MoveOrder_new 0 6 true moveH [moveC1; moveK])).
Proof.
  assert (NULL_MOVE ∉ [moveC1; moveK]) as H1 by by_computation.
  assert (moveH ≠ NULL_MOVE) as H2 by (vm_compute; congruence).
  assert (moveH ∉ [moveC1; moveK]) as H3 by by_computation.
  split; [exact H1|]. split; [exact H2|]. split; [exact H3|].
  exact (proj1 (proj2 (proj2
           (predicted_move_not_in_list store 0 6 true moveH [moveC1; moveK] H1 H2 H3)))).
Defined.

End ExampleNodeMore.
